(** * fit_searev_data: AR fitting of SEAREV speed data

    A shallow embedding of the numerical core of
    [20 Searev storage control/fit_searev_data.py]: the torque command law,
    the empirical autocovariance and autocorrelation estimators, the analytic
    autocovariance of an ARMA model, the AR fit by autocorrelation matching,
    the AR(2) state-space conversion and the prediction / simulation loop.

    Numbers.  The program computes with IEEE binary64 values held in numpy
    arrays.  The embedding idealises them as real numbers ([R]): every
    arithmetic operation is the exact one and rounding is not modelled.
    Where numpy would produce [inf] or [nan] (a division by zero) the model
    has no faithful value, so the statements that involve such a division
    carry the condition that the divisor is not zero.

    Arrays.  A one-dimensional numpy array is a [list R]; a two-dimensional
    one is the list of its rows.  Python indices and slice bounds are
    integers ([Z]) and may be negative, with Python's wrap-around and
    clamping written out.  Operations that raise in Python return
    [Raise e] in the [Result] monad. *)

From Stdlib Require Import Reals Lra Lia ZArith List.
From stdpp Require Import base option list list_numbers.

Open Scope R_scope.

(** ** Python: exceptions, indices, slices *)

Module Py.

Inductive Exc : Set :=
| ValueError
| IndexError
| LinAlgError
| AssertionError.

Inductive Result (A : Type) : Type :=
| Ok (a : A)
| Raise (e : Exc).

Arguments Ok {A} a.
Arguments Raise {A} e.

#[global] Instance result_ret : MRet Result := λ A a, Ok a.

#[global] Instance result_bind : MBind Result :=
  λ A B f m, match m with Ok a => f a | Raise e => Raise e end.

#[global] Instance result_fmap : FMap Result :=
  λ A B f m, match m with Ok a => Ok (f a) | Raise e => Raise e end.

(** [assert c] *)
Definition assert (c : Prop) `{Decision c} : Result unit :=
  if decide c then Ok tt else Raise AssertionError.

(** [for b in l: a = f(a, b)], stopping at the first exception. *)
Fixpoint for_each {A B : Type} (f : A → B → Result A) (a : A) (l : list B)
  : Result A :=
  match l with
  | [] => Ok a
  | b :: l' => a' ← f a b; for_each f a' l'
  end.

(** [range(lo, hi)] *)
Definition range (lo hi : Z) : list Z := seqZ lo (hi - lo).

(** Position designated by index [i] in a sequence of length [len]:
    [0 <= i < len] is itself, [-len <= i < 0] counts from the end, anything
    else is an [IndexError]. *)
Definition index (len : nat) (i : Z) : Result nat :=
  if decide (0 ≤ i < Z.of_nat len)%Z then Ok (Z.to_nat i)
  else if decide (- Z.of_nat len ≤ i < 0)%Z then Ok (Z.to_nat (i + Z.of_nat len))
  else Raise IndexError.

(** A slice bound is clamped, never an error: a negative bound counts from
    the end and stops at 0, a bound past the end stops at [len]. *)
Definition bound (len : nat) (i : Z) : nat :=
  if decide (i < 0)%Z then Z.to_nat (Z.max 0 (i + Z.of_nat len))
  else Z.to_nat (Z.min i (Z.of_nat len)).

(** [a[lo:hi]]; [None] is an omitted bound. *)
Definition slice {A : Type} (a : list A) (lo hi : option Z) : list A :=
  let n := length a in
  let l := from_option (bound n) 0%nat lo in
  let h := from_option (bound n) n hi in
  take (h - l) (drop l a).

End Py.

Import Py.

(** ** numpy: one-dimensional arrays *)

Module Np.

(** [np.zeros(n)] *)
Definition zeros (n : nat) : list R := replicate n 0.

(** [np.sum(a)] *)
Definition sum (a : list R) : R := foldr Rplus 0 a.

(** [a[i]] *)
Definition getitem (a : list R) (i : Z) : Result R :=
  k ← index (length a) i;
  from_option Ok (Raise IndexError) (a !! k).

(** [a[i] = v] *)
Definition setitem (a : list R) (i : Z) (v : R) : Result (list R) :=
  k ← index (length a) i;
  Ok (<[k:=v]> a).

(** Element-wise binary operation on two one-dimensional arrays, with
    numpy's broadcasting: equal lengths pair up, a length-1 operand is
    stretched, any other pair of shapes is a [ValueError]. *)
Definition broadcast (op : R → R → R) (a b : list R) : Result (list R) :=
  if decide (length a = length b) then Ok (zip_with op a b)
  else match a, b with
       | [u], _ => Ok (map (op u) b)
       | _, [v] => Ok (map (λ u, op u v) a)
       | _, _ => Raise ValueError
       end.

(** [a * b] and [a / b] on arrays.  On a zero divisor numpy gives [inf] or
    [nan] (with a warning, not an exception), values the reals do not have:
    the quotient of the model means the quotient of the program only where
    the divisor is not zero. *)
Definition mul : list R → list R → Result (list R) := broadcast Rmult.
Definition div : list R → list R → Result (list R) := broadcast Rdiv.

(** [np.inner(a, b)] on one-dimensional arrays: the lengths must agree. *)
Definition inner (a b : list R) : Result R :=
  if decide (length a = length b) then Ok (sum (zip_with Rmult a b))
  else Raise ValueError.

(** [dst[:k] = src] for [0 <= k]: the right-hand side must have the shape
    of the target (or one element, which is stretched). *)
Definition set_prefix (dst : list R) (k : nat) (src : list R)
  : Result (list R) :=
  let w := Nat.min k (length dst) in
  if decide (length src = w) then Ok (src ++ drop w dst)
  else match src with
       | [v] => Ok (replicate w v ++ drop w dst)
       | _ => Raise ValueError
       end.

End Np.

(** ** Simulation parameters (module-level constants) *)

Definition damp : R := 4000000.        (* 4.e6 N/(rad/s) *)
Definition torque_max : R := 2000000.  (* 2e6 N.m *)
Definition power_max : R := 1100000.   (* 1.1e6 W *)
Definition dt : R := 1 / 10.           (* 0.1 s *)

(** ** Torque command law *)

(** [torque_law] acts element-wise on the speed array through [np.where];
    [torque_law1] is what it does to one element.  Both branches of the last
    [np.where] are computed and one is selected, so [power_max/speed] at
    [speed = 0] is computed and dropped. *)
Definition torque_law1 (speed : R) : R :=
  let tor := speed * damp in
  let tor := if Rgt_dec tor torque_max then torque_max else tor in
  let tor := if Rlt_dec tor (- torque_max) then - torque_max else tor in
  let tor := if Rgt_dec (tor * speed) power_max then power_max / speed else tor in
  tor.

Definition torque_law (speed : list R) : list R := map torque_law1 speed.

(** ** Empirical autocovariance and autocorrelation *)

Definition acov (x : list R) (maxlags : Z) (lags : option (list Z))
  : Result (list R) :=
  let lags := default (range 0 (maxlags + 1)) lags in
  let N := length x in
  let acov_x := Np.zeros (length lags) in
  for_each
    (λ acov_x h,
       prod ← Np.mul (slice x (Some h) None)
                     (slice x None (Some (Z.of_nat N - h)%Z));
       Np.setitem acov_x h (Np.sum prod / INR N))
    acov_x lags.

Definition acf (x : list R) (maxlags : Z) (lags : option (list Z))
  : Result (list R) :=
  acov_x ← acov x maxlags lags;
  d ← Np.getitem acov_x 0;
  Ok (map (λ v, v / d) acov_x).

(** ** scipy.signal.lfilter *)

Module Sig.

(** Sum of the products of the entries two lists have in common. *)
Definition dot (a b : list R) : R := Np.sum (zip_with Rmult a b).

(** [run b a xs ys x] filters the samples [x] when the samples already
    consumed are [xs] and the outputs already produced are [ys], both most
    recent first:
    [a[0]*y[n] = b[0]*x[n] + b[1]*x[n-1] + ... - a[1]*y[n-1] - ...]. *)
Fixpoint run (b a xs ys x : list R) : list R :=
  match x with
  | [] => []
  | xn :: x' =>
      let yn := (dot b (xn :: xs) - dot (tl a) ys) / hd 0 a in
      yn :: run b a (xn :: xs) (yn :: ys) x'
  end.

(** [sig.lfilter(b, a, x)], from rest. *)
Definition lfilter (b a x : list R) : list R := run b a [] [] x.

End Sig.

(** ** Matrices: scipy.linalg.toeplitz, np.hsplit, np.hstack, np.linalg.solve *)

Module Linalg.

(** [toeplitz(c, r)]: first column [c], first row [r] with [r[0]] ignored. *)
Definition toeplitz (c r : list R) : list (list R) :=
  map (λ i, map (λ j, if decide (j ≤ i)%nat then nth (i - j) c 0
                      else nth (j - i) r 0)
                (seq 0 (length r)))
      (seq 0 (length c)).

(** [np.hsplit(M, (j1, j2))]: the column blocks [:j1], [j1:j2], [j2:]. *)
Definition hsplit (M : list (list R)) (j1 j2 : nat)
  : list (list R) * list (list R) * list (list R) :=
  (map (take j1) M, map (λ row, take (j2 - j1) (drop j1 row)) M, map (drop j2) M).

(** [M[:, ::-1]] *)
Definition fliplr (M : list (list R)) : list (list R) := map (@rev R) M.

(** [M1 + M2] for equal shapes *)
Definition add (M1 M2 : list (list R)) : list (list R) :=
  zip_with (zip_with Rplus) M1 M2.

(** [np.hstack((M1, M2))] *)
Definition hstack (M1 M2 : list (list R)) : list (list R) :=
  zip_with (@app R) M1 M2.

(** Position of the first entry of largest absolute value among [l], given
    that the best so far is at [best] with absolute value [bv] and that [l]
    starts at position [i]. *)
Fixpoint argmax_abs (best : nat) (bv : R) (i : nat) (l : list R) : nat :=
  match l with
  | [] => best
  | v :: l' =>
      if Rlt_dec bv (Rabs v) then argmax_abs i (Rabs v) (S i) l'
      else argmax_abs best bv (S i) l'
  end.

(** A row of the augmented system: coefficients and right-hand side. *)
Definition eqn : Type := list R * R.

Definition pivot_row (rows : list eqn) : nat :=
  match rows with
  | [] => 0%nat
  | r :: rest => argmax_abs 0 (Rabs (hd 0 r.1)) 1 (map (λ e : eqn, hd 0 e.1) rest)
  end.

Definition swap_rows (i j : nat) (rows : list eqn) : list eqn :=
  match rows !! i, rows !! j with
  | Some ri, Some rj => <[j:=ri]> (<[i:=rj]> rows)
  | _, _ => rows
  end.

(** Subtract from [e] the multiple of the pivot equation [(a :: prow, pb)]
    that clears its first coefficient. *)
Definition reduce (a : R) (prow : list R) (pb : R) (e : eqn) : eqn :=
  let f := hd 0 e.1 / a in
  (zip_with (λ u v, u - f * v) (tl e.1) prow, e.2 - f * pb).

(** Gaussian elimination with partial pivoting on [k] unknowns, then back
    substitution; an exactly zero pivot is a singular matrix. *)
Fixpoint eliminate (k : nat) (rows : list eqn) : Result (list R) :=
  match k with
  | O => Ok []
  | S k' =>
      match swap_rows 0 (pivot_row rows) rows with
      | [] => Raise LinAlgError
      | (prow, pb) :: rest =>
          let a := hd 0 prow in
          if Req_dec_T a 0 then Raise LinAlgError
          else
            xs ← eliminate k' (map (reduce a (tl prow) pb) rest);
            Ok ((pb - Sig.dot (tl prow) xs) / a :: xs)
      end
  end.

(** [np.linalg.solve(A, b)] for a square [A] and a vector [b]. *)
Definition solve (A : list (list R)) (b : list R) : Result (list R) :=
  let k := length A in
  if decide (length b = k ∧ Forall (λ row, length row = k) A)
  then eliminate k (zip A b)
  else Raise LinAlgError.

End Linalg.

(** ** Analytic autocovariance of an ARMA model *)

(** The model dictionary [{'ar': ..., 'ma': ...}]. *)
Record Model : Type := { ar : list R; ma : list R }.

Definition arma_acov (model : Model) (maxlags : Z) (innov_var : R)
  : Result (list R) :=
  let ar_coef := ar model in
  let ma_coef := ma model in
  let p := length ar_coef in
  let q := length ma_coef in
  (* Impulse response *)
  let delta := <[0%nat:=1]> (Np.zeros (q + 1)) in
  let num := [1] ++ ma_coef in
  let den := [1] ++ map Ropp ar_coef in
  let imp_res := Sig.lfilter num den delta in
  _ ← assert (length imp_res = (q + 1)%nat);
  (* Number of covariance steps to solve with linear equations *)
  let n := Nat.max p (q + 1) in
  let imp_res_rev := rev imp_res ++ Np.zeros n in
  let b := Sig.lfilter num [1] imp_res_rev in
  let b := slice b (Some (Z.of_nat q)) None in
  _ ← assert (length b = (n + 1)%nat);
  let b := map (λ v, v * innov_var) b in
  ar_coef_ext ← Np.set_prefix (Np.zeros n) p ar_coef;
  let r := map Ropp (rev ar_coef_ext) ++ [1] ++ Np.zeros n in
  last ← Np.getitem ar_coef_ext (-1);
  let c := <[0%nat:=- last]> (Np.zeros (n + 1)) in
  let M := Linalg.toeplitz c r in
  (* Folded addition, due to the symmetry cov(-k) = cov(k) *)
  let '(M_neg, M_0, M_pos) := Linalg.hsplit M n (n + 1) in
  let A := Linalg.hstack M_0 (Linalg.add M_pos (Linalg.fliplr M_neg)) in
  (* Solve for cov(0) to cov(n) *)
  cov_n ← Linalg.solve A b;
  if decide (maxlags ≤ Z.of_nat n)%Z then
    Ok (slice cov_n None (Some (maxlags + 1)%Z))
  else
    (* maxlags > n: complete the covariance *)
    let cov := Np.zeros (Z.to_nat (maxlags + 1)) in
    cov ← Np.set_prefix cov (n + 1) cov_n;
    for_each
      (λ cov i,
         v ← Np.inner (slice cov (Some (i - Z.of_nat p)%Z) (Some i))
                      (rev ar_coef);
         Np.setitem cov i v)
      cov (range (Z.of_nat n + 1) (maxlags + 1)).

Definition arma_acf (model : Model) (maxlags : Z) : Result (list R) :=
  acov ← arma_acov model maxlags 1;
  d ← Np.getitem acov 0;
  Ok (map (λ v, v / d) acov).

(** ** AR(p) fit by least-square fit of the autocorrelation *)

Module Np2.

(** [np.zeros((m, k))]: a negative dimension is a [ValueError]. *)
Definition zeros (m : Z) (k : nat) : Result (list (list R)) :=
  if decide (0 ≤ m)%Z then Ok (replicate (Z.to_nat m) (Np.zeros k))
  else Raise ValueError.

(** [X[:, i] = v] on an array of [ncols] columns. *)
Definition set_column (ncols : nat) (X : list (list R)) (i : Z) (v : list R)
  : Result (list (list R)) :=
  k ← index ncols i;
  if decide (length v = length X)
  then Ok (zip_with (λ row vi, <[k:=vi]> row) X v)
  else match v with
       | [u] => Ok (map (λ row, <[k:=u]> row) X)
       | _ => Raise ValueError
       end.

(** [np.mean(a)] *)
Definition mean (a : list R) : R := Np.sum a / INR (length a).

End Np2.

Section Fit.

(** The two library routines the fit calls are parameters of the model:
    [np.linalg.lstsq(X, y)] (its first result, the coefficient vector) and
    [scipy.optimize.fmin(f, x0, xtol=1e-6, ftol=1e-6)]. *)
Variable lstsq : list (list R) → list R → Result (list R).
Variable fmin : (list R → Result R) → list R → Result (list R).

(** The regressor matrix [X] and the target [y] of the first guess. *)
Definition regressors (x : list R) (p : Z) : Result (list (list R) * list R) :=
  let n := Z.of_nat (length x) in
  X ← Np2.zeros (n - p) (Z.to_nat p);
  X ← for_each
         (λ X i,
            (* col [i] contains x lagged by i+1 (from 1 to p) *)
            Np2.set_column (Z.to_nat p) X i
              (slice x (Some (i + 1)%Z) (Some (n - p + i + 1)%Z)))
         X (range 0 p);
  let y := slice x None (Some (n - p)%Z) in
  Ok (X, y).

(** Mean square error between the model and the data autocorrelations. *)
Definition cov_objective (x : list R) (maxlags : Z) (ar_coef : list R)
  : Result R :=
  let model := {| ar := ar_coef; ma := [] |} in
  acf_ar ← arma_acf model maxlags;
  acf_x ← acf x maxlags None;
  acf_error ← Np.broadcast Rminus acf_ar acf_x;
  Ok (Np2.mean (map (λ e, e ^ 2) acf_error)).

Definition ar_acf_fit (x : list R) (p : Z) (maxlags : option Z)
  : Result (list R * R) :=
  _ ← assert (0 ≤ p)%Z;
  (* first guess by one-step AR least-square estimation *)
  Xy ← regressors x p;
  ar_coef0 ← lstsq Xy.1 Xy.2;
  ar_coef ← match maxlags with
            | Some m => fmin (cov_objective x m) ar_coef0
            | None => Ok ar_coef0
            end;
  (* variance of residuals so that variance of both processes match *)
  cov_x ← acov x 0 None;
  cov_m ← arma_acov {| ar := ar_coef; ma := [] |} 0 1;
  ratio ← Np.div cov_x cov_m;
  res_var ← Np.getitem ratio 0;
  Ok (ar_coef, res_var).

End Fit.

(** ** State-space model *)

Definition vec2 : Type := R * R.
Definition mat2 : Type := vec2 * vec2.

(** A [(2, m)] array, as its two rows. *)
Definition arr2 : Type := list R * list R.

(** Conversion of AR2 to state-space; [p1, p2 = ar_coef] needs exactly two
    coefficients. *)
Definition T_AR2 (ar_coef : list R) : Result mat2 :=
  match ar_coef with
  | [p1; p2] => Ok ((p1 + p2, - dt * p2), ((p1 + p2 - 1) / dt, - p2))
  | _ => Raise ValueError
  end.

(** The prescribed covariance of the innovation. *)
Definition innov_cov (innov_var : R) : mat2 :=
  ((1 * innov_var, 1 / dt * innov_var),
   (1 / dt * innov_var, 1 / dt ^ 2 * innov_var)).

Module State.

Definition zero_mat : mat2 := ((0, 0), (0, 0)).

(** [np.dot(T, v)] *)
Definition dot (T : mat2) (v : vec2) : vec2 :=
  (T.1.1 * v.1 + T.1.2 * v.2, T.2.1 * v.1 + T.2.2 * v.2).

Definition add (u v : vec2) : vec2 := (u.1 + v.1, u.2 + v.2).

(** [np.zeros((2, m))] *)
Definition zeros (m : Z) : Result arr2 :=
  if decide (0 ≤ m)%Z then Ok (Np.zeros (Z.to_nat m), Np.zeros (Z.to_nat m))
  else Raise ValueError.

(** [X[:, j]] *)
Definition getcol (X : arr2) (j : Z) : Result vec2 :=
  a ← Np.getitem X.1 j;
  b ← Np.getitem X.2 j;
  Ok (a, b).

(** [X[:, j] = v] *)
Definition setcol (X : arr2) (j : Z) (v : vec2) : Result arr2 :=
  r0 ← Np.setitem X.1 j v.1;
  r1 ← Np.setitem X.2 j v.2;
  Ok (r0, r1).

(** [D.T] for a [(m, 2)] array given by its rows *)
Definition transpose (D : list vec2) : arr2 := (map fst D, map snd D).

End State.

Section Trajectories.

(** [rnd.multivariate_normal(mean, cov, size)]: the [size] draws, one per
    row.  The random state is fresh and unseeded, so the draws are a
    parameter of the model. *)
Variable multivariate_normal : vec2 → mat2 → Z → list vec2.

(** The prediction and the simulation trajectory from the last observed
    state [x_last], as the pair [(X_prev, X_traj)]. *)
Definition trajectories (T : mat2) (Sigma : mat2) (x_last : vec2) (maxlags : Z)
  : Result (arr2 * arr2) :=
  X_prev ← State.zeros (maxlags + 1);
  X_prev ← State.setcol X_prev 0 x_last;
  X_traj ← State.zeros (maxlags + 1);
  X_traj ← State.setcol X_traj 0 x_last;
  (* Simulate some innovation *)
  let err_sim := State.transpose (multivariate_normal (0, 0) Sigma maxlags) in
  for_each
    (λ '(X_prev, X_traj) i,
       xp ← State.getcol X_prev (i - 1);
       X_prev ← State.setcol X_prev i (State.dot T xp);
       xt ← State.getcol X_traj (i - 1);
       e ← State.getcol err_sim (i - 1);
       X_traj ← State.setcol X_traj i (State.add (State.dot T xt) e);
       Ok (X_prev, X_traj))
    (X_prev, X_traj) (range 1 (maxlags + 1)).

Definition X_prev (T Sigma : mat2) (x_last : vec2) (maxlags : Z) : Result arr2 :=
  fst <$> trajectories T Sigma x_last maxlags.

Definition X_traj (T Sigma : mat2) (x_last : vec2) (maxlags : Z) : Result arr2 :=
  snd <$> trajectories T Sigma x_last maxlags.

End Trajectories.

(** ** Reference definitions used by the statements *)

(** The torque after the max torque limitation, before the power one. *)
Definition torque_limited (speed : R) : R :=
  let tor := speed * damp in
  let tor := if Rgt_dec tor torque_max then torque_max else tor in
  let tor := if Rlt_dec tor (- torque_max) then - torque_max else tor in
  tor.

(** Two matrices agree entry by entry within [tol]. *)
Definition mat_close (tol : R) (A B : mat2) : Prop :=
  Rabs (A.1.1 - B.1.1) <= tol ∧ Rabs (A.1.2 - B.1.2) <= tol
  ∧ Rabs (A.2.1 - B.2.1) <= tol ∧ Rabs (A.2.2 - B.2.2) <= tol.

(** The biased empirical autocovariance of [x] at lag [h], without mean
    subtraction: [(1/N) * sum_{t=0}^{N-h-1} x[t] * x[t+h]]. *)
Definition autocov (x : list R) (h : nat) : R :=
  Np.sum (map (λ t, nth t x 0 * nth (t + h) x 0) (seq 0 (length x - h)))
  / INR (length x).

(** The deterministic prediction of the specification: [X[0] = x0] and
    [X[i] = T . X[i-1]]. *)
Fixpoint predict_spec (T : mat2) (x0 : vec2) (i : nat) : vec2 :=
  match i with
  | O => x0
  | S i' => State.dot T (predict_spec T x0 i')
  end.

(** The [(2, horizon + 1)] array whose column [i] is [predict_spec T x0 i]. *)
Definition predicted (T : mat2) (x0 : vec2) (horizon : nat) : arr2 :=
  State.transpose (map (predict_spec T x0) (seq 0 (S horizon))).

(** The state of the loop after [k] iterations: the columns [0 .. k] hold the
    prediction, the others are still zero. *)
Definition filled (T : mat2) (x0 : vec2) (horizon k : nat) : arr2 :=
  (map (λ i, (predict_spec T x0 i).1) (seq 0 (S k)) ++ Np.zeros (horizon - k),
   map (λ i, (predict_spec T x0 i).2) (seq 0 (S k)) ++ Np.zeros (horizon - k)).

(** The right-hand side of the AR recurrence at lag [i]:
    [sum_{k=1}^{p} ar_coef[k] * cov(i-k)], the coefficients being numbered
    from 1 (so [ar_coef[k]] is the entry at position [k - 1]). *)
Definition ar_recurrence (ar_coef cov : list R) (i : nat) : R :=
  Np.sum (map (λ k, nth (k - 1) ar_coef 0 * nth (i - k) cov 0)
              (seq 1 (length ar_coef))).

(** The three stages of [arma_acov], named: the number of lags solved by
    linear equations, the right-hand side and the matrix of the linear
    system, and the completion of the covariance beyond lag [n]. *)
Definition solved_lags (model : Model) : nat :=
  Nat.max (length (ar model)) (length (ma model) + 1).

Definition system_rhs (model : Model) (innov_var : R) : list R :=
  let q := length (ma model) in
  let n := solved_lags model in
  let num := [1] ++ ma model in
  let den := [1] ++ map Ropp (ar model) in
  let imp_res := Sig.lfilter num den (<[0%nat:=1]> (Np.zeros (q + 1))) in
  map (λ v, v * innov_var)
      (drop q (Sig.lfilter num [1] (rev imp_res ++ Np.zeros n))).

Definition system_matrix (model : Model) : list (list R) :=
  let p := length (ar model) in
  let n := solved_lags model in
  let ar_coef_ext := ar model ++ Np.zeros (n - p) in
  let r := map Ropp (rev ar_coef_ext) ++ [1] ++ Np.zeros n in
  let c := <[0%nat:=- nth (n - 1) ar_coef_ext 0]> (Np.zeros (n + 1)) in
  let M := Linalg.toeplitz c r in
  Linalg.hstack (Linalg.hsplit M n (n + 1)).1.2
    (Linalg.add (Linalg.hsplit M n (n + 1)).2
                (Linalg.fliplr (Linalg.hsplit M n (n + 1)).1.1)).

Definition complete_cov (model : Model) (maxlags : Z) (cov_n : list R)
  : Result (list R) :=
  let p := length (ar model) in
  let n := solved_lags model in
  if decide (maxlags ≤ Z.of_nat n)%Z then
    Ok (slice cov_n None (Some (maxlags + 1)%Z))
  else
    cov ← Np.set_prefix (Np.zeros (Z.to_nat (maxlags + 1))) (n + 1) cov_n;
    for_each
      (λ cov i,
         v ← Np.inner (slice cov (Some (i - Z.of_nat p)%Z) (Some i))
                      (rev (ar model));
         Np.setitem cov i v)
      cov (range (Z.of_nat n + 1) (maxlags + 1)).

(** The regression of the first guess, in the words of the specification:
    [N - p] rows; column [i] (for [i] in [0 .. p-1]) holds [x] lagged by
    [i + 1] samples, so row [t] is [x[t+1], ..., x[t+p]]; the target is [x]
    trimmed to its first [N - p] samples. *)
Definition lagged_design (x : list R) (p : nat) : list (list R) :=
  map (λ t, map (λ i, nth (t + i + 1) x 0) (seq 0 p)) (seq 0 (length x - p)).

Definition trimmed_target (x : list R) (p : nat) : list R :=
  take (length x - p) x.

(** ** More of the program: derived signals, prediction error, penalty *)

(** [np.diff(a)]: the differences of consecutive entries. *)
Definition np_diff (a : list R) : list R := zip_with Rminus (drop 1 a) a.

(** The acceleration, a backward derivative of the speed:
    [accel = np.concatenate(([0.], np.diff(speed)/dt))]. *)
Definition accel (speed : list R) : list R :=
  [0] ++ map (λ d, d / dt) (np_diff speed).

(** [np.vstack((a, b))] for two one-dimensional arrays: the lengths must
    agree. *)
Definition vstack (a b : list R) : Result arr2 :=
  if decide (length a = length b) then Ok (a, b) else Raise ValueError.

(** The state variables [X = np.vstack((speed, accel))]. *)
Definition state_X (speed : list R) : Result arr2 := vstack speed (accel speed).

(** The simulated power in MW:
    [power_sim = speed_sim*torque_law(speed_sim)/1e6]. *)
Definition power_sim (speed_sim : list R) : Result (list R) :=
  prod ← Np.mul speed_sim (torque_law speed_sim);
  Ok (map (λ v, v / 1000000) prod).

(** [np.dot(T, X)] for a [(2, 2)] matrix and a [(2, m)] array. *)
Definition dot_arr (T : mat2) (X : arr2) : arr2 :=
  (zip_with (λ a b, T.1.1 * a + T.1.2 * b) X.1 X.2,
   zip_with (λ a b, T.2.1 * a + T.2.2 * b) X.1 X.2).

(** [np.sum(e**2)] for a two-row array [e]. *)
Definition sum_sq (e : arr2) : R :=
  Np.sum (map (λ v, v ^ 2) e.1) + Np.sum (map (λ v, v ^ 2) e.2).

(** Mean square prediction error at horizon [fitlags], on the state
    variables [X] ([n_pts] is their number of columns). *)
Definition pred_objective (X : arr2) (fitlags : Z) (T : mat2) : Result R :=
  let n_pts := Z.of_nat (length X.1) in
  r ← for_each
        (λ '(X_prev, err) i,
           (* Recursive prediction *)
           let X_prev := dot_arr T X_prev in
           e0 ← Np.broadcast Rminus (slice X.1 (Some i) None)
                                    (slice X_prev.1 None (Some (- i)%Z));
           e1 ← Np.broadcast Rminus (slice X.2 (Some i) None)
                                    (slice X_prev.2 None (Some (- i)%Z));
           (* Add the mean square error *)
           Ok (X_prev,
               err + sum_sq (e0, e1) / IZR (n_pts - i) / IZR fitlags))
        (X, 0) (range 1 (fitlags + 1));
  Ok r.2.

(** [storage_performance.cost]: the penalty on the power injected to the
    grid, [(P_grid/power_max)**2] entry by entry.  [power_max] is imported
    from a module that is not part of the sources, hence a parameter. *)
Definition cost (pmax : R) (P_grid : list R) : list R :=
  map (λ P, (P / pmax) ^ 2) P_grid.

(** ** Reference definitions used by the further properties *)

(** The body of the loop of [acov]. *)
Definition acov_step (x : list R) (acov_x : list R) (h : Z) : Result (list R) :=
  prod ← Np.mul (slice x (Some h) None)
                (slice x None (Some (Z.of_nat (length x) - h)%Z));
  Np.setitem acov_x h (Np.sum prod / INR (length x)).

(** An equation of the elimination with its right-hand side multiplied by
    [c]. *)
Definition scale_eqn (c : R) (e : Linalg.eqn) : Linalg.eqn := (e.1, c * e.2).

(** Column [k] of a two-row array, 0 beyond its width. *)
Definition col (X : arr2) (k : nat) : vec2 := (nth k X.1 0, nth k X.2 0).

(** The simulation of the specification for given draws:
    [X[0] = x0] and [X[i] = T . X[i-1] + draws[i-1]]. *)
Fixpoint simulate_spec (T : mat2) (x0 : vec2) (draws : list vec2) (i : nat)
  : vec2 :=
  match i with
  | O => x0
  | S i' => State.add (State.dot T (simulate_spec T x0 draws i'))
                      (nth i' draws (0, 0))
  end.

(** The two-row array whose column [i] is [f i] up to column [k], and zero
    on the [rest] further columns. *)
Definition columns (f : nat → vec2) (k rest : nat) : arr2 :=
  (map (λ i, (f i).1) (seq 0 (S k)) ++ Np.zeros rest,
   map (λ i, (f i).2) (seq 0 (S k)) ++ Np.zeros rest).

(** The prediction error at horizon [i]: column [t] is column [t + i] of the
    data [X] minus column [t] of the prediction [Xp]. *)
Definition step_error (X Xp : arr2) (i : nat) : arr2 :=
  (map (λ t, nth (t + i) X.1 0 - nth t Xp.1 0) (seq 0 (length X.1 - i)),
   map (λ t, nth (t + i) X.2 0 - nth t Xp.2 0) (seq 0 (length X.2 - i))).
(** * Properties *)

(** ** The [Result] monad and loops *)

Lemma bind_Ok {A B : Type} (m : Result A) (f : A → Result B) (b : B) :
  m ≫= f = Ok b ↔ ∃ a, m = Ok a ∧ f a = Ok b.
Proof.
  destruct m as [a|e]; cbn; split.
  - eauto.
  - intros (a' & [= <-] & H); exact H.
  - discriminate.
  - intros (a' & [=] & _).
Qed.

Lemma fmap_Ok {A B : Type} (m : Result A) (f : A → B) (b : B) :
  f <$> m = Ok b ↔ ∃ a, m = Ok a ∧ b = f a.
Proof.
  destruct m as [a|e]; cbn; split.
  - intros [= <-]; eauto.
  - intros (a' & [= <-] & ->); reflexivity.
  - discriminate.
  - intros (a' & [=] & _).
Qed.

(** A loop that keeps an invariant indexed by the number of iterations done
    runs to its end and establishes the invariant there. *)
Lemma for_each_invariant {A B : Type} (f : A → B → Result A)
    (I : nat → A → Prop) (l : list B) (a : A) :
  I 0%nat a →
  (∀ k b s, l !! k = Some b → I k s → ∃ s', f s b = Ok s' ∧ I (S k) s') →
  ∃ r, for_each f a l = Ok r ∧ I (length l) r.
Proof.
  revert I a. induction l as [|b l IH]; intros I a H0 Hstep; cbn.
  - eauto.
  - destruct (Hstep 0%nat b a eq_refl H0) as (s' & -> & H1). cbn.
    apply (IH (λ k, I (S k))); [exact H1|].
    intros k b' s Hk Hs. exact (Hstep (S k) b' s Hk Hs).
Qed.


(** Split an equation between results, lists or pairs into the equations
    between their entries. *)
Ltac eq_entries :=
  lazymatch goal with
  | |- Ok _ = Ok _ => apply f_equal; eq_entries
  | |- Some _ = Some _ => apply f_equal; eq_entries
  | |- _ :: _ = _ :: _ => apply (f_equal2 cons); eq_entries
  | |- (_, _) = (_, _) => apply (f_equal2 pair); eq_entries
  | |- @nil _ = @nil _ => reflexivity
  | |- _ => idtac
  end.

(** ** Torque law *)

Lemma torque_law1_limited (speed : R) :
  torque_law1 speed =
  if Rgt_dec (torque_limited speed * speed) power_max then power_max / speed
  else torque_limited speed.
Proof. reflexivity. Qed.

Lemma torque_limited_bound (speed : R) :
  - torque_max <= torque_limited speed <= torque_max.
Proof.
  unfold torque_limited, torque_max, damp.
  repeat destruct (Rgt_dec _ _); repeat destruct (Rlt_dec _ _); lra.
Qed.

Lemma power_limit_torque (t s : R) :
  - torque_max <= t <= torque_max → t * s > power_max →
  power_max / s * s = power_max ∧ Rabs (power_max / s) < torque_max.
Proof.
  unfold power_max, torque_max. intros Hb Hp.
  assert (Hs : s ≠ 0) by (intros ->; lra).
  split; [field; exact Hs|].
  destruct (Rlt_or_le 0 s) as [Hpos|Hneg].
  - rewrite Rabs_pos_eq.
    + apply (Rmult_lt_reg_r s); [exact Hpos|].
      replace (1100000 / s * s) with 1100000 by (field; lra). nra.
    + apply Rlt_le, Rdiv_lt_0_compat; lra.
  - assert (Hn : s < 0) by lra.
    assert (Hq : 1100000 / s < 0).
    { apply (Rmult_lt_reg_r (- s)); [lra|].
      replace (1100000 / s * - s) with (-1100000) by (field; lra). lra. }
    rewrite Rabs_left; [|exact Hq].
    apply (Rmult_lt_reg_r (- s)); [lra|].
    replace (- (1100000 / s) * - s) with 1100000 by (field; lra). nra.
Qed.

Lemma torque_law1_bounds (s : R) :
  Rabs (torque_law1 s) <= torque_max
  ∧ torque_law1 s * s <= power_max
  ∧ (torque_limited s * s > power_max →
     torque_law1 s * s = power_max ∧ Rabs (torque_law1 s) < torque_max).
Proof.
  rewrite torque_law1_limited.
  pose proof (torque_limited_bound s) as Hb.
  pose proof (power_limit_torque (torque_limited s) s Hb) as Hfire.
  destruct (Rgt_dec (torque_limited s * s) power_max) as [Hp|Hp].
  - destruct (Hfire Hp) as [He Ha]. split; [lra|]. split; [lra|]. tauto.
  - split; [apply Rabs_le; lra|]. split; [lra|]. intros Hc. contradiction.
Qed.

(** At rest the law commands no torque: the quotient [power_max/speed] is
    formed but not selected. *)
Lemma torque_law_at_rest : torque_law [0] = [0].
Proof.
  unfold torque_law, torque_law1, damp, torque_max, power_max. cbn [map].
  repeat (destruct (Rgt_dec _ _) as [?|?]; try lra);
    repeat (destruct (Rlt_dec _ _) as [?|?]; try lra);
    f_equal; lra.
Qed.

(** C10.  Every element [s] of the speed array, whatever its value (zero
    included), gets a torque whose magnitude is at most [torque_max] and
    whose power [torque * s] is at most [power_max]; when the power
    limitation fires, the power is exactly [power_max] and the magnitude of
    the torque is strictly below [torque_max]. *)
Theorem torque_law_saturation (speed : list R) (i : nat) (s : R) :
  speed !! i = Some s →
  ∃ tor, torque_law speed !! i = Some tor
    ∧ Rabs tor <= torque_max
    ∧ tor * s <= power_max
    ∧ (torque_limited s * s > power_max →
       tor * s = power_max ∧ Rabs tor < torque_max).
Proof.
  intros Hs. exists (torque_law1 s). split.
  - unfold torque_law. rewrite list_lookup_fmap, Hs. reflexivity.
  - apply torque_law1_bounds.
Qed.

Lemma torque_law_saturation_witness :
  ∃ tor, torque_law [0; 1] !! 1%nat = Some tor
    ∧ Rabs tor <= torque_max
    ∧ tor * 1 <= power_max
    ∧ tor * 1 = power_max ∧ Rabs tor < torque_max.
Proof.
  destruct (torque_law_saturation [0; 1] 1 1 eq_refl)
    as (tor & Htor & Habs & Hpow & Hfire).
  exists tor. split; [exact Htor|]. split; [exact Habs|]. split; [exact Hpow|].
  apply Hfire. unfold torque_limited, damp, torque_max, power_max.
  destruct (Rgt_dec (1 * 4000000) 2000000) as [_|Hn].
  - destruct (Rlt_dec 2000000 (- (2000000))) as [Hn|_]; lra.
  - exfalso. apply Hn. lra.
Defined.

(** ** State-space conversion *)

Lemma T_AR2_eval :
  T_AR2 [0.9; -0.05] = Ok ((0.85, 0.005), (-1.5, 0.05)).
Proof.
  unfold T_AR2, dt. do 3 f_equal; lra.
Qed.

(** C3, as the code computes it.  For [(0.9, -0.05)] and [dt = 0.1] the
    transition matrix is [[0.85, 0.005], [-1.5, 0.05]]: the lower left entry
    is [(0.9 - 0.05 - 1) / 0.1 = -1.5]. *)
Theorem T_AR2_example :
  T_AR2 [0.9; -0.05] = Ok ((0.85, 0.005), (-1.5, 0.05)).
Proof. exact T_AR2_eval. Qed.

(** C3, as stated, fails: no tolerance below one half makes the computed
    matrix agree with [[0.85, 0.005], [-0.95, 0.05]]. *)
Lemma T_AR2_not_as_claimed :
  ¬ ∃ T tol, T_AR2 [0.9; -0.05] = Ok T ∧ tol < 0.5
             ∧ mat_close tol T ((0.85, 0.005), (-0.95, 0.05)).
Proof.
  intros (T & tol & HT & Htol & Hc).
  rewrite T_AR2_eval in HT. injection HT as <-.
  destruct Hc as (_ & _ & H21 & _). cbn in H21.
  replace (-1.5 - -0.95) with (-0.55) in H21 by lra.
  rewrite Rabs_left in H21; lra.
Qed.

(** The conversion formula, for any pair of coefficients. *)
Lemma T_AR2_formula (p1 p2 : R) :
  T_AR2 [p1; p2] = Ok ((p1 + p2, - dt * p2), ((p1 + p2 - 1) / dt, - p2)).
Proof. reflexivity. Qed.
(** ** Indices and slices *)

Lemma index_nat (len k : nat) :
  (k < len)%nat → index len (Z.of_nat k) = Ok k.
Proof.
  intros Hk. unfold index.
  destruct (decide _) as [_|Hn]; [|lia].
  f_equal. lia.
Qed.

Lemma slice_from {A : Type} (a : list A) (i : Z) :
  (0 ≤ i)%Z → slice a (Some i) None = drop (Z.to_nat i) a.
Proof.
  intros Hi. unfold slice, bound. cbn.
  destruct (decide (i < 0)%Z) as [?|_]; [lia|].
  destruct (decide (i ≤ Z.of_nat (length a))%Z) as [Hle|Hgt].
  - rewrite Z.min_l by lia. apply take_ge. rewrite length_drop. lia.
  - rewrite Z.min_r by lia. rewrite Nat2Z.id.
    rewrite (drop_ge a (Z.to_nat i)) by lia.
    rewrite drop_ge by lia. apply take_nil.
Qed.

Lemma slice_to {A : Type} (a : list A) (i : Z) :
  (0 ≤ i)%Z → slice a None (Some i) = take (Z.to_nat i) a.
Proof.
  intros Hi. unfold slice, bound. cbn.
  destruct (decide (i < 0)%Z) as [?|_]; [lia|].
  rewrite Nat.sub_0_r, drop_0.
  destruct (decide (i ≤ Z.of_nat (length a))%Z) as [Hle|Hgt].
  - rewrite Z.min_l by lia. reflexivity.
  - rewrite Z.min_r by lia. rewrite Nat2Z.id.
    rewrite (take_ge a (length a)) by lia.
    rewrite (take_ge a (Z.to_nat i)) by lia. reflexivity.
Qed.

Lemma slice_to_neg {A : Type} (a : list A) (i : Z) :
  (i + Z.of_nat (length a) ≤ 0)%Z → slice a None (Some i) = [].
Proof.
  intros Hi. unfold slice, bound. cbn.
  destruct (decide (i < 0)%Z) as [_|?].
  - rewrite Z.max_l by lia. reflexivity.
  - assert (length a = 0%nat) as Hl by lia.
    apply nil_length_inv in Hl. subst a. apply take_nil.
Qed.

Lemma slice_between {A : Type} (a : list A) (lo hi : Z) :
  (0 ≤ lo ≤ hi)%Z → (hi ≤ Z.of_nat (length a))%Z →
  slice a (Some lo) (Some hi) = take (Z.to_nat (hi - lo)) (drop (Z.to_nat lo) a).
Proof.
  intros Hlo Hhi. unfold slice, bound. cbn.
  destruct (decide (lo < 0)%Z) as [?|_]; [lia|].
  destruct (decide (hi < 0)%Z) as [?|_]; [lia|].
  rewrite !Z.min_l by lia. f_equal. lia.
Qed.

(** ** Sums *)

Lemma sum_app (a b : list R) : Np.sum (a ++ b) = Np.sum a + Np.sum b.
Proof.
  unfold Np.sum. induction a as [|u a IH]; cbn.
  - lra.
  - rewrite IH. lra.
Qed.

Lemma sum_zeros (n : nat) : Np.sum (Np.zeros n) = 0.
Proof.
  unfold Np.sum, Np.zeros. induction n as [|n IH]; cbn; [reflexivity|].
  rewrite IH. lra.
Qed.

Lemma sum_ext {A : Type} (f g : A → R) (l : list A) :
  (∀ a, a ∈ l → f a = g a) → Np.sum (map f l) = Np.sum (map g l).
Proof.
  unfold Np.sum. induction l as [|a l IH]; intros H; cbn; [reflexivity|].
  rewrite (H a) by left. rewrite IH; [reflexivity|].
  intros b Hb. apply H. right. exact Hb.
Qed.

(** A pairwise product is a product of entries taken by position. *)
Lemma zip_with_nth (op : R → R → R) (a b : list R) :
  zip_with op a b =
  map (λ t, op (nth t a 0) (nth t b 0))
      (seq 0 (Nat.min (length a) (length b))).
Proof.
  revert b. induction a as [|u a IH]; intros [|v b]; cbn; try reflexivity.
  f_equal. rewrite IH, <- seq_shift, map_map. reflexivity.
Qed.

(** ** Item access at a natural position *)

Lemma getitem_nat (a : list R) (k : nat) (v : R) :
  a !! k = Some v → Np.getitem a (Z.of_nat k) = Ok v.
Proof.
  intros Hk. unfold Np.getitem.
  rewrite index_nat by (apply lookup_lt_Some in Hk; exact Hk).
  cbn. rewrite Hk. reflexivity.
Qed.

Lemma setitem_nat (a : list R) (k : nat) (v : R) :
  (k < length a)%nat → Np.setitem a (Z.of_nat k) v = Ok (<[k:=v]> a).
Proof.
  intros Hk. unfold Np.setitem. rewrite index_nat by exact Hk. reflexivity.
Qed.
(** ** Empirical autocovariance *)

(** One iteration of the loop of [acov], at a lag within the sample. *)
Lemma acov_product (x : list R) (h : nat) :
  (h ≤ length x)%nat →
  ∃ prod,
    Np.mul (slice x (Some (Z.of_nat h)) None)
           (slice x None (Some (Z.of_nat (length x) - Z.of_nat h)%Z)) = Ok prod
    ∧ Np.sum prod / INR (length x) = autocov x h.
Proof.
  intros Hh.
  rewrite slice_from, slice_to by lia.
  rewrite Nat2Z.id. replace (Z.to_nat _) with (length x - h)%nat by lia.
  unfold Np.mul, Np.broadcast.
  assert (Hl : length (drop h x) = length (take (length x - h) x)).
  { rewrite length_drop, length_take. lia. }
  destruct (decide _) as [_|Hn]; [|contradiction].
  eexists; split; [reflexivity|].
  unfold autocov. f_equal.
  rewrite zip_with_nth, <- Hl, Nat.min_id, length_drop.
  apply sum_ext. intros t Ht. apply elem_of_seq in Ht.
  rewrite nth_skipn, nth_firstn.
  destruct (Nat.ltb_spec t (length x - h)) as [_|?]; [|lia].
  rewrite (Nat.add_comm h t). apply Rmult_comm.
Qed.

(** The dense estimator, for a largest lag between 0 and the sample length
    (included), returns the empirical autocovariance at lags
    [0 .. maxlags]. *)
Lemma acov_dense (x : list R) (maxlags : Z) :
  (0 ≤ maxlags ≤ Z.of_nat (length x))%Z →
  acov x maxlags None = Ok (map (autocov x) (seq 0 (Z.to_nat (maxlags + 1)))).
Proof.
  intros Hm. unfold acov. cbn [default].
  set (M := Z.to_nat (maxlags + 1)).
  assert (HM : length (range 0 (maxlags + 1)) = M).
  { unfold range. rewrite length_seqZ. lia. }
  rewrite HM.
  destruct (for_each_invariant
    (λ acov_x h,
       prod ← Np.mul (slice x (Some h) None)
                     (slice x None (Some (Z.of_nat (length x) - h)%Z));
       Np.setitem acov_x h (Np.sum prod / INR (length x)))
    (λ k acc, acc = map (autocov x) (seq 0 k) ++ Np.zeros (M - k))
    (range 0 (maxlags + 1)) (Np.zeros M)) as (r & Hr & HI).
  - cbn. rewrite Nat.sub_0_r. reflexivity.
  - intros k b s Hk ->. apply lookup_seqZ in Hk as [-> Hk].
    rewrite Z.add_0_l.
    destruct (acov_product x k) as (prod & -> & Hp); [lia|]. cbn -[seq].
    rewrite Hp. unfold Np.setitem.
    rewrite index_nat.
    2:{ rewrite length_app, length_map, length_seq.
        unfold Np.zeros. rewrite length_replicate. lia. }
    cbn -[seq]. eexists; split; [reflexivity|].
    rewrite insert_app_r_alt by (rewrite length_map, length_seq; lia).
    rewrite length_map, length_seq, Nat.sub_diag.
    replace (M - k)%nat with (S (M - S k)) by lia.
    rewrite seq_S, map_app, <- app_assoc. reflexivity.
  - rewrite Hr, HI, HM, Nat.sub_diag. cbn. rewrite app_nil_r. reflexivity.
Qed.

(** At the lag equal to the sample length the sum is empty. *)
Lemma autocov_at_length (x : list R) : autocov x (length x) = 0.
Proof.
  unfold autocov. rewrite Nat.sub_diag. cbn. unfold Rdiv. apply Rmult_0_l.
Qed.

(** A negative largest lag gives an empty range, hence an empty result. *)
Lemma acov_negative (x : list R) (maxlags : Z) :
  (maxlags < 0)%Z → acov x maxlags None = Ok [].
Proof.
  intros Hm. unfold acov, range. cbn [default].
  replace (seqZ 0 (maxlags + 1 - 0)) with (@nil Z); [reflexivity|].
  symmetry. apply nil_length_inv. rewrite length_seqZ. lia.
Qed.
(** ** Empirical autocorrelation *)

Lemma acf_dense (x : list R) (maxlags : Z) :
  (0 ≤ maxlags ≤ Z.of_nat (length x))%Z →
  acf x maxlags None =
  Ok (map (λ h, autocov x h / autocov x 0) (seq 0 (Z.to_nat (maxlags + 1)))).
Proof.
  intros Hm. unfold acf. rewrite acov_dense by exact Hm.
  replace (Z.to_nat (maxlags + 1)) with (S (Z.to_nat maxlags)) by lia.
  cbn -[seq]. unfold Np.getitem.
  rewrite (index_nat _ 0) by (rewrite length_map, length_seq; lia).
  cbn. f_equal. f_equal. rewrite map_map. reflexivity.
Qed.

(** C6.  When the largest lag is within the sample and the lag-0
    autocovariance is strictly positive, the autocorrelation is returned and
    its value at lag 0 is exactly 1. *)
Theorem acf_lag0_is_one (x : list R) (maxlag : Z) :
  (0 ≤ maxlag < Z.of_nat (length x))%Z →
  0 < autocov x 0 →
  ∃ r, acf x maxlag None = Ok r
       ∧ length r = Z.to_nat (maxlag + 1)
       ∧ r !! 0%nat = Some 1.
Proof.
  intros Hm Hpos. rewrite acf_dense by lia.
  eexists; split; [reflexivity|]. split.
  - rewrite length_map, length_seq. reflexivity.
  - replace (Z.to_nat (maxlag + 1)) with (S (Z.to_nat maxlag)) by lia.
    cbn. f_equal. field. lra.
Qed.

Lemma acf_lag0_is_one_witness :
  ∃ r, acf [1; 2; 3] 2 None = Ok r
       ∧ length r = Z.to_nat (2 + 1)
       ∧ r !! 0%nat = Some 1.
Proof.
  apply (acf_lag0_is_one [1; 2; 3] 2).
  - cbn. lia.
  - unfold autocov. cbn. lra.
Defined.

(** ** Lags outside the sample *)

Lemma acov_at_sample_length :
  acov [1; 2; 3] 3 None = Ok [14 / 3; 8 / 3; 1; 0].
Proof.
  rewrite acov_dense by (cbn; lia).
  vm_compute. eq_entries; lra.
Qed.

Lemma acov_negative_lag :
  acov [1; 2; 3] 0 (Some [(-1)%Z]) = Ok [6].
Proof.
  vm_compute. eq_entries; lra.
Qed.

Lemma acf_at_sample_length :
  acf [1; 2; 3] 3 None = Ok [1; 4 / 7; 3 / 14; 0].
Proof.
  rewrite acf_dense by (cbn; lia).
  vm_compute. eq_entries; lra.
Qed.

(** C4, as stated, fails: with the largest lag equal to the sample length,
    and with a negative explicit lag, [acov] returns a value, and so does
    [acf]. *)
Lemma acov_returns_outside_sample :
  acov [1; 2; 3] 3 None = Ok [14 / 3; 8 / 3; 1; 0]
  ∧ acov [1; 2; 3] 0 (Some [(-1)%Z]) = Ok [6]
  ∧ acf [1; 2; 3] 3 None = Ok [1; 4 / 7; 3 / 14; 0].
Proof.
  split; [exact acov_at_sample_length|].
  split; [exact acov_negative_lag|exact acf_at_sample_length].
Qed.

(** C4, as the code behaves.  There is no check of the lags.  For a
    non-empty sample and a largest lag equal to the sample length, [acov]
    returns the [N + 1] empirical autocovariances, the one at lag [N] being
    the empty sum 0, and [acf] returns [N + 1] values too; for a negative
    largest lag [acov] returns the empty sequence. *)
Theorem acov_has_no_lag_check (x : list R) (m : Z) :
  x ≠ [] →
  (acov x (Z.of_nat (length x)) None
     = Ok (map (autocov x) (seq 0 (S (length x))))
   ∧ autocov x (length x) = 0
   ∧ ∃ r, acf x (Z.of_nat (length x)) None = Ok r ∧ length r = S (length x))
  ∧ ((m < 0)%Z → acov x m None = Ok []).
Proof.
  intros Hx. split; [|apply acov_negative].
  assert (HS : Z.to_nat (Z.of_nat (length x) + 1) = S (length x)) by lia.
  split; [|split].
  - rewrite acov_dense by lia. rewrite HS. reflexivity.
  - apply autocov_at_length.
  - rewrite acf_dense by lia. rewrite HS.
    eexists; split; [reflexivity|].
    rewrite length_map, length_seq. reflexivity.
Qed.

Lemma acov_has_no_lag_check_witness :
  (acov [1; 2; 3] (Z.of_nat (length [1; 2; 3])) None
     = Ok (map (autocov [1; 2; 3]) (seq 0 (S (length [1; 2; 3]))))
   ∧ autocov [1; 2; 3] (length [1; 2; 3]) = 0
   ∧ ∃ r, acf [1; 2; 3] (Z.of_nat (length [1; 2; 3])) None = Ok r
          ∧ length r = S (length [1; 2; 3]))
  ∧ acov [1; 2; 3] (-1) None = Ok [].
Proof.
  destruct (acov_has_no_lag_check [1; 2; 3] (-1)) as [H1 H2].
  - discriminate.
  - split; [exact H1|]. apply H2. lia.
Defined.

(** ** Explicit lags *)

(** C5 fails on the code: the value for lag [h] is stored at position [h]
    of an array that has one slot per requested lag.  The single lag 2 is
    out of bounds of its one-slot array, and the lags [1, 0] come back in
    the order of the lags 0, 1. *)
Theorem acov_sparse_lags_by_value :
  acov [1; 2; 3] 0 (Some [2%Z]) = Raise IndexError
  ∧ acov [1; 2; 3] 0 (Some [1%Z; 0%Z])
    = Ok [autocov [1; 2; 3] 0; autocov [1; 2; 3] 1]
  ∧ autocov [1; 2; 3] 0 = 14 / 3
  ∧ autocov [1; 2; 3] 1 = 8 / 3.
Proof.
  split; [reflexivity|]. split; [|split].
  - vm_compute. eq_entries; lra.
  - vm_compute. lra.
  - vm_compute. lra.
Qed.
(** ** Prediction and simulation trajectories *)

Section TrajectoryProperties.

Variable multivariate_normal : vec2 → mat2 → Z → list vec2.

Lemma getitem_filled (f : nat → R) (k n : nat) :
  Np.getitem (map f (seq 0 (S k)) ++ Np.zeros n) (Z.of_nat k) = Ok (f k).
Proof.
  apply getitem_nat.
  rewrite lookup_app_l by (rewrite length_map, length_seq; lia).
  rewrite list_lookup_fmap, lookup_seq_lt by lia. reflexivity.
Qed.

Lemma filled_getcol (T : mat2) (x0 : vec2) (horizon k : nat) :
  State.getcol (filled T x0 horizon k) (Z.of_nat k) = Ok (predict_spec T x0 k).
Proof.
  unfold State.getcol, filled. cbn [fst snd].
  rewrite !getitem_filled.
  cbn. destruct (predict_spec T x0 k); reflexivity.
Qed.

Lemma filled_setcol (T : mat2) (x0 : vec2) (horizon k : nat) :
  (k < horizon)%nat →
  State.setcol (filled T x0 horizon k) (Z.of_nat (S k))
               (predict_spec T x0 (S k))
  = Ok (filled T x0 horizon (S k)).
Proof.
  intros Hk. unfold State.setcol, filled. cbn [fst snd].
  assert (Hfill : ∀ f : nat → R,
    <[S k:=f (S k)]> (map f (seq 0 (S k)) ++ Np.zeros (horizon - k))
    = map f (seq 0 (S (S k))) ++ Np.zeros (horizon - S k)).
  { intros f.
    rewrite insert_app_r_alt by (rewrite length_map, length_seq; lia).
    rewrite length_map, length_seq, Nat.sub_diag.
    replace (horizon - k)%nat with (S (horizon - S k)) by lia.
    rewrite (seq_S (S k)), map_app, <- app_assoc. reflexivity. }
  rewrite !setitem_nat.
  2,3: rewrite length_app, length_map, length_seq;
       unfold Np.zeros; rewrite length_replicate; lia.
  cbn -[seq predict_spec].
  rewrite (Hfill (λ i, (predict_spec T x0 i).1)).
  rewrite (Hfill (λ i, (predict_spec T x0 i).2)). reflexivity.
Qed.

Lemma add_zero (v : vec2) : State.add v (0, 0) = v.
Proof.
  destruct v as [a b]. unfold State.add. cbn. f_equal; lra.
Qed.

(** Without noise, prediction and simulation coincide with the prediction
    of the specification. *)
Lemma trajectories_zero_noise (T : mat2) (x0 : vec2) (horizon : nat) :
  multivariate_normal (0, 0) State.zero_mat (Z.of_nat horizon)
    = replicate horizon (0, 0) →
  trajectories multivariate_normal T State.zero_mat x0 (Z.of_nat horizon)
    = Ok (predicted T x0 horizon, predicted T x0 horizon).
Proof.
  intros Hdraw. unfold trajectories. rewrite Hdraw.
  unfold State.zeros.
  destruct (decide _) as [_|?]; [|lia].
  replace (Z.to_nat (Z.of_nat horizon + 1)) with (S horizon) by lia.
  assert (H0 : State.setcol (Np.zeros (S horizon), Np.zeros (S horizon)) 0 x0
               = Ok (filled T x0 horizon 0)).
  { unfold State.setcol, filled. cbn [fst snd].
    rewrite !(setitem_nat _ 0)
      by (unfold Np.zeros; rewrite length_replicate; lia).
    cbn. rewrite Nat.sub_0_r. reflexivity. }
  cbn [mbind result_bind]. rewrite H0. cbn [mbind result_bind].
  destruct (for_each_invariant
    (λ '(X_prev, X_traj) i,
       xp ← State.getcol X_prev (i - 1);
       X_prev ← State.setcol X_prev i (State.dot T xp);
       xt ← State.getcol X_traj (i - 1);
       e ← State.getcol (State.transpose (replicate horizon (0, 0))) (i - 1);
       X_traj ← State.setcol X_traj i (State.add (State.dot T xt) e);
       Ok (X_prev, X_traj))
    (λ k s, s = (filled T x0 horizon k, filled T x0 horizon k))
    (range 1 (Z.of_nat horizon + 1))
    (filled T x0 horizon 0, filled T x0 horizon 0)) as (r & Hr & HI).
  - reflexivity.
  - intros k b s Hk ->. apply lookup_seqZ in Hk as [-> Hk].
    replace (1 + Z.of_nat k - 1)%Z with (Z.of_nat k) by lia.
    replace (1 + Z.of_nat k)%Z with (Z.of_nat (S k)) by lia.
    rewrite filled_getcol. cbn [mbind result_bind].
    change (State.dot T (predict_spec T x0 k)) with (predict_spec T x0 (S k)).
    rewrite filled_setcol by lia. cbn [mbind result_bind].
    assert (He : State.getcol (State.transpose (replicate horizon (0, 0)))
                   (Z.of_nat k) = Ok (0, 0)).
    { unfold State.getcol, State.transpose. cbn [fst snd].
      rewrite !(getitem_nat _ k 0).
      - reflexivity.
      - rewrite list_lookup_fmap, lookup_replicate_2 by lia. reflexivity.
      - rewrite list_lookup_fmap, lookup_replicate_2 by lia. reflexivity. }
    rewrite He. cbn [mbind result_bind]. rewrite add_zero.
    rewrite filled_setcol by lia. cbn [mbind result_bind].
    eexists; split; reflexivity.
  - rewrite Hr, HI. unfold range. rewrite length_seqZ.
    replace (Z.to_nat (Z.of_nat horizon + 1 - 1)) with horizon by lia.
    unfold filled, predicted, State.transpose.
    rewrite Nat.sub_diag. cbn [Np.zeros replicate].
    rewrite !app_nil_r, !map_map. reflexivity.
Qed.

End TrajectoryProperties.

Lemma predicted_getcol (T : mat2) (x0 : vec2) (horizon i : nat) :
  (i ≤ horizon)%nat →
  State.getcol (predicted T x0 horizon) (Z.of_nat i) = Ok (predict_spec T x0 i).
Proof.
  intros Hi. unfold State.getcol, predicted, State.transpose. cbn [fst snd].
  assert (Hl : ∀ g : R * R → R,
    @map (R * R) R g (map (predict_spec T x0) (seq 0 (S horizon))) !! i
    = Some (g (predict_spec T x0 i))).
  { intros g. rewrite !list_lookup_fmap, lookup_seq_lt by lia. reflexivity. }
  rewrite (getitem_nat _ i _ (Hl fst)). cbn [mbind result_bind].
  rewrite (getitem_nat _ i _ (Hl snd)). cbn [mbind result_bind].
  destruct (predict_spec T x0 i); reflexivity.
Qed.

(** With no innovation variance the prescribed covariance is the zero
    matrix. *)
Lemma innov_cov_zero : innov_cov 0 = State.zero_mat.
Proof.
  unfold innov_cov, State.zero_mat, dt. eq_entries; field.
Qed.

(** C9.  When the draws for a zero covariance matrix are all the zero
    vector, the simulated trajectory is returned and is the same array as
    the predicted one, whose column 0 is the initial state and whose column
    [i] is [T] applied to column [i - 1]. *)
Theorem simulation_without_noise
    (multivariate_normal : vec2 → mat2 → Z → list vec2)
    (T : mat2) (x0 : vec2) (horizon : nat) :
  multivariate_normal (0, 0) State.zero_mat (Z.of_nat horizon)
    = replicate horizon (0, 0) →
  ∃ X, X_traj multivariate_normal T State.zero_mat x0 (Z.of_nat horizon) = Ok X
       ∧ X_prev multivariate_normal T State.zero_mat x0 (Z.of_nat horizon) = Ok X
       ∧ State.getcol X 0 = Ok x0
       ∧ ∀ i : nat, (1 ≤ i ≤ horizon)%nat →
           ∃ v, State.getcol X (Z.of_nat i - 1) = Ok v
                ∧ State.getcol X (Z.of_nat i) = Ok (State.dot T v).
Proof.
  intros Hdraw. exists (predicted T x0 horizon).
  unfold X_traj, X_prev.
  rewrite (trajectories_zero_noise _ T x0 horizon Hdraw). cbn [fmap result_fmap fst snd].
  split; [reflexivity|]. split; [reflexivity|]. split.
  - apply (predicted_getcol T x0 horizon 0). lia.
  - intros i Hi. exists (predict_spec T x0 (i - 1)). split.
    + replace (Z.of_nat i - 1)%Z with (Z.of_nat (i - 1)) by lia.
      apply predicted_getcol. lia.
    + rewrite predicted_getcol by lia.
      replace i with (S (i - 1)) at 1 by lia. reflexivity.
Qed.

Lemma simulation_without_noise_witness :
  ∃ X, X_traj (λ mean _ n, replicate (Z.to_nat n) mean)
         ((0.85, 0.005), (-1.5, 0.05)) State.zero_mat (1, 0) (Z.of_nat 2) = Ok X
       ∧ X_prev (λ mean _ n, replicate (Z.to_nat n) mean)
           ((0.85, 0.005), (-1.5, 0.05)) State.zero_mat (1, 0) (Z.of_nat 2) = Ok X
       ∧ State.getcol X 0 = Ok (1, 0)
       ∧ ∀ i : nat, (1 ≤ i ≤ 2)%nat →
           ∃ v, State.getcol X (Z.of_nat i - 1) = Ok v
                ∧ State.getcol X (Z.of_nat i)
                  = Ok (State.dot ((0.85, 0.005), (-1.5, 0.05)) v).
Proof.
  apply (simulation_without_noise (λ mean _ n, replicate (Z.to_nat n) mean)).
  reflexivity.
Defined.
(** ** Analytic autocovariance: structure of [arma_acov] *)

Lemma assert_true (c : Prop) `{Decision c} : c → assert c = Ok tt.
Proof. intros Hc. unfold assert. destruct (decide c); [reflexivity|contradiction]. Qed.

Lemma length_run (b a xs ys x : list R) :
  length (Sig.run b a xs ys x) = length x.
Proof.
  revert xs ys. induction x as [|xn x IH]; intros xs ys; cbn; [reflexivity|].
  rewrite IH. reflexivity.
Qed.

Lemma length_lfilter (b a x : list R) : length (Sig.lfilter b a x) = length x.
Proof. apply length_run. Qed.

Lemma length_zeros (n : nat) : length (Np.zeros n) = n.
Proof. apply length_replicate. Qed.

Lemma solved_lags_pos (model : Model) : (1 ≤ solved_lags model)%nat.
Proof. unfold solved_lags. lia. Qed.

Lemma solved_lags_ar (model : Model) :
  (length (ar model) ≤ solved_lags model)%nat.
Proof. unfold solved_lags. lia. Qed.

(** [arma_acov] solves the linear system, then completes the covariance;
    nothing before the solution of the system can raise. *)
Lemma arma_acov_stages (model : Model) (maxlags : Z) (innov_var : R) :
  arma_acov model maxlags innov_var =
  cov_n ← Linalg.solve (system_matrix model) (system_rhs model innov_var);
  complete_cov model maxlags cov_n.
Proof.
  unfold arma_acov. cbv zeta.
  pose proof (solved_lags_pos model) as Hn1.
  pose proof (solved_lags_ar model) as Hnp.
  fold (solved_lags model).
  set (n := solved_lags model) in *.
  set (p := length (ar model)) in *.
  set (q := length (ma model)) in *.
  rewrite (assert_true (length (Sig.lfilter _ _ _) = _)).
  2:{ rewrite length_lfilter, length_insert, length_zeros. reflexivity. }
  cbn [mbind result_bind].
  rewrite slice_from by lia. rewrite Nat2Z.id.
  rewrite assert_true.
  2:{ rewrite length_drop, length_lfilter, length_app, length_rev.
        rewrite length_lfilter, length_insert, !length_zeros. lia. }
  cbn [mbind result_bind].
  assert (Hext : Np.set_prefix (Np.zeros n) p (ar model)
                 = Ok (ar model ++ Np.zeros (n - p))).
  { unfold Np.set_prefix. rewrite length_zeros, Nat.min_l by exact Hnp.
    destruct (decide _) as [_|Hne]; [|contradiction].
    unfold Np.zeros. rewrite drop_replicate. reflexivity. }
  rewrite Hext. cbn [mbind result_bind].
  assert (Hlast : Np.getitem (ar model ++ Np.zeros (n - p)) (-1)
                  = Ok (nth (n - 1) (ar model ++ Np.zeros (n - p)) 0)).
  { unfold Np.getitem, index.
    rewrite length_app, length_zeros. fold p.
    destruct (decide (0 ≤ -1 < _)%Z) as [?|_]; [lia|].
    destruct (decide _) as [_|?]; [|lia].
    cbn [mbind result_bind].
    replace (Z.to_nat _) with (n - 1)%nat by lia.
    rewrite nth_lookup.
    destruct (_ !! _) as [v|] eqn:Hv; [reflexivity|].
    apply lookup_ge_None in Hv. rewrite length_app, length_zeros in Hv.
    fold p in Hv. lia. }
  rewrite Hlast. cbn [mbind result_bind].
  reflexivity.
Qed.

(** ** The completion of the covariance by the AR recurrence *)

Lemma sum_seq_reverse (f : nat → R) (p : nat) :
  Np.sum (map f (seq 0 p)) = Np.sum (map (λ k, f (p - k)%nat) (seq 1 p)).
Proof.
  induction p as [|p IH].
  - reflexivity.
  - rewrite seq_S, map_app, sum_app, IH.
    change (seq 1 (S p)) with (1%nat :: seq 2 p).
    rewrite <- (seq_shift p 1). cbn [map]. rewrite map_map.
    unfold Np.sum. cbn [map foldr Nat.add Nat.sub].
    rewrite Nat.sub_0_r. lra.
Qed.

(** The inner product of the loop body is the sum of the recurrence. *)
Lemma inner_window (ar_coef cov : list R) (i : nat) :
  (length ar_coef ≤ i)%nat → (i ≤ length cov)%nat →
  Np.inner (slice cov (Some (Z.of_nat i - Z.of_nat (length ar_coef))%Z)
                      (Some (Z.of_nat i)))
           (rev ar_coef)
  = Ok (ar_recurrence ar_coef cov i).
Proof.
  intros Hp Hi. set (p := length ar_coef) in *.
  rewrite slice_between by lia.
  replace (Z.to_nat (Z.of_nat i - (Z.of_nat i - Z.of_nat p))) with p by lia.
  replace (Z.to_nat (Z.of_nat i - Z.of_nat p)) with (i - p)%nat by lia.
  assert (Hl : length (take p (drop (i - p) cov)) = p).
  { rewrite length_take, length_drop. lia. }
  unfold Np.inner. rewrite Hl, length_rev. fold p.
  destruct (decide (p = p)) as [_|?]; [|contradiction].
  f_equal. unfold ar_recurrence. fold p.
  rewrite zip_with_nth, Hl, length_rev. fold p. rewrite Nat.min_id.
  rewrite sum_seq_reverse.
  apply sum_ext. intros k Hk. apply elem_of_seq in Hk.
  rewrite nth_firstn, nth_skipn.
  destruct (Nat.ltb_spec (p - k) p) as [_|?]; [|lia].
  rewrite rev_nth by (fold p; lia). fold p.
  replace (p - S (p - k))%nat with (k - 1)%nat by lia.
  replace (i - p + (p - k))%nat with (i - k)%nat by lia.
  apply Rmult_comm.
Qed.

(** The recurrence at lag [j] reads only the lags below [j]. *)
Lemma ar_recurrence_insert (ar_coef cov : list R) (i j : nat) (v : R) :
  (0 < j ≤ i)%nat →
  ar_recurrence ar_coef (<[i:=v]> cov) j = ar_recurrence ar_coef cov j.
Proof.
  intros Hj. unfold ar_recurrence. apply sum_ext.
  intros k Hk. apply elem_of_seq in Hk. f_equal.
  rewrite !nth_lookup, list_lookup_insert_ne by lia. reflexivity.
Qed.

(** Beyond lag [n] the loop runs to its end; it keeps the lags up to [n]
    and makes every further lag satisfy the recurrence. *)
Lemma completion_loop (ar_coef cov0 : list R) (n : nat) (maxlags : Z) :
  (length ar_coef ≤ n)%nat →
  length cov0 = Z.to_nat (maxlags + 1) →
  ∃ cov,
    for_each
      (λ cov i,
         v ← Np.inner (slice cov (Some (i - Z.of_nat (length ar_coef))%Z) (Some i))
                      (rev ar_coef);
         Np.setitem cov i v)
      cov0 (range (Z.of_nat n + 1) (maxlags + 1)) = Ok cov
    ∧ length cov = Z.to_nat (maxlags + 1)
    ∧ (∀ j : nat, (j ≤ n)%nat → cov !! j = cov0 !! j)
    ∧ (∀ i : nat, (n < i)%nat → (Z.of_nat i ≤ maxlags)%Z →
         cov !! i = Some (ar_recurrence ar_coef cov i)).
Proof.
  intros Hp Hlen.
  destruct (for_each_invariant
    (λ cov i,
       v ← Np.inner (slice cov (Some (i - Z.of_nat (length ar_coef))%Z) (Some i))
                    (rev ar_coef);
       Np.setitem cov i v)
    (λ k c,
       length c = Z.to_nat (maxlags + 1)
       ∧ (∀ j : nat, (j ≤ n)%nat → c !! j = cov0 !! j)
       ∧ (∀ i : nat, (n < i < n + 1 + k)%nat →
            c !! i = Some (ar_recurrence ar_coef c i)))
    (range (Z.of_nat n + 1) (maxlags + 1)) cov0) as (r & Hr & HI).
  - split; [exact Hlen|]. split; [reflexivity|]. intros i Hi. lia.
  - intros k b c Hk (Hc & Hkeep & Hrec).
    apply lookup_seqZ in Hk as [-> Hk].
    replace (Z.of_nat n + 1 + Z.of_nat k)%Z with (Z.of_nat (n + 1 + k)) by lia.
    rewrite inner_window by lia. cbn [mbind result_bind].
    rewrite setitem_nat by lia.
    eexists; split; [reflexivity|]. split; [|split].
    + rewrite length_insert. exact Hc.
    + intros j Hj. rewrite list_lookup_insert_ne by lia. apply Hkeep, Hj.
    + intros i Hi. rewrite ar_recurrence_insert by lia.
      destruct (decide (i = n + 1 + k)%nat) as [->|Hne].
      * apply list_lookup_insert_eq. lia.
      * rewrite list_lookup_insert_ne by lia. apply Hrec. lia.
  - exists r. destruct HI as (Hc & Hkeep & Hrec).
    split; [exact Hr|]. split; [exact Hc|]. split; [exact Hkeep|].
    intros i Hi Him. apply Hrec.
    unfold range. rewrite length_seqZ. lia.
Qed.

Lemma length_set_prefix (dst src r : list R) (k : nat) :
  Np.set_prefix dst k src = Ok r → length r = length dst.
Proof.
  unfold Np.set_prefix.
  destruct (decide _) as [Hl|Hl].
  - intros [= <-]. rewrite length_app, length_drop. lia.
  - destruct src as [|v [|? ?]]; try discriminate.
    intros [= <-]. rewrite length_app, length_replicate, length_drop. lia.
Qed.

Lemma ar_recurrence_nil (cov : list R) (i : nat) : ar_recurrence [] cov i = 0.
Proof. reflexivity. Qed.

(** What [arma_acov] returns for a largest lag beyond the solved lags. *)
Lemma arma_acov_beyond (model : Model) (maxlags : Z) (innov_var : R)
    (cov : list R) :
  (Z.of_nat (solved_lags model) < maxlags)%Z →
  arma_acov model maxlags innov_var = Ok cov →
  ∃ cov_n cov0,
    Linalg.solve (system_matrix model) (system_rhs model innov_var) = Ok cov_n
    ∧ Np.set_prefix (Np.zeros (Z.to_nat (maxlags + 1)))
        (solved_lags model + 1) cov_n = Ok cov0
    ∧ length cov = Z.to_nat (maxlags + 1)
    ∧ (∀ j : nat, (j ≤ solved_lags model)%nat → cov !! j = cov0 !! j)
    ∧ (∀ i : nat, (solved_lags model < i)%nat → (Z.of_nat i ≤ maxlags)%Z →
         cov !! i = Some (ar_recurrence (ar model) cov i)).
Proof.
  intros Hm H. rewrite arma_acov_stages in H.
  apply bind_Ok in H as (cov_n & Hsolve & H).
  unfold complete_cov in H.
  destruct (decide _) as [?|_]; [lia|].
  apply bind_Ok in H as (cov0 & Hpre & H).
  exists cov_n, cov0. split; [exact Hsolve|]. split; [exact Hpre|].
  destruct (completion_loop (ar model) cov0 (solved_lags model) maxlags)
    as (cov' & Hloop & Hlen & Hkeep & Hrec).
  - apply solved_lags_ar.
  - rewrite (length_set_prefix _ _ _ _ Hpre). apply length_zeros.
  - rewrite Hloop in H. injection H as <-. auto.
Qed.
(** ** The AR(1) model *)

Lemma ar1_system (phi innov_var : R) :
  system_matrix {| ar := [phi]; ma := [] |} = [[1; - phi]; [- phi; 1]]
  ∧ system_rhs {| ar := [phi]; ma := [] |} innov_var = [innov_var; 0].
Proof.
  split.
  - vm_compute. eq_entries; lra.
  - vm_compute. eq_entries; field.
Qed.

Lemma solve_ar1 (phi innov_var : R) :
  -1 < phi < 1 →
  Linalg.solve [[1; - phi]; [- phi; 1]] [innov_var; 0]
  = Ok [innov_var / (1 - phi ^ 2); phi * innov_var / (1 - phi ^ 2)].
Proof.
  intros Hphi. unfold Linalg.solve. cbn [length].
  destruct (decide _) as [_|Hn].
  2:{ exfalso. apply Hn. split; [reflexivity|]. repeat constructor. }
  cbn [zip zip_with Linalg.eliminate Linalg.pivot_row map Linalg.argmax_abs fst snd hd].
  assert (Habs : Rabs (- phi) < Rabs 1).
  { rewrite Rabs_R1, Rabs_Ropp. apply Rabs_def1; lra. }
  destruct (Rlt_dec (Rabs 1) (Rabs (- phi))) as [?|_]; [lra|].
  cbn [Linalg.swap_rows lookup list_lookup list_insert insert hd tl].
  destruct (Req_dec_T 1 0) as [?|_]; [lra|].
  cbn [map Linalg.reduce Linalg.pivot_row Linalg.argmax_abs fst snd hd tl
       zip_with Linalg.swap_rows lookup list_lookup list_insert insert].
  assert (Hpiv : 1 - - phi / 1 * - phi ≠ 0) by (intros H; nra).
  destruct (Req_dec_T _ 0) as [?|_]; [contradiction|].
  cbn [mbind result_bind Sig.dot zip_with Np.sum foldr tl].
  eq_entries; field; nra.
Qed.

(** The closed form of the AR(1) autocovariance, for any innovation
    variance. *)
Lemma arma_acov_ar1 (phi innov_var : R) (maxlags : Z) :
  -1 < phi < 1 → (0 ≤ maxlags)%Z →
  ∃ cov,
    arma_acov {| ar := [phi]; ma := [] |} maxlags innov_var = Ok cov
    ∧ length cov = Z.to_nat (maxlags + 1)
    ∧ ∀ h : nat, (Z.of_nat h ≤ maxlags)%Z →
        cov !! h = Some (innov_var * phi ^ h / (1 - phi ^ 2)).
Proof.
  intros Hphi Hm.
  assert (Hden : 1 - phi ^ 2 ≠ 0) by (intros H; nra).
  rewrite arma_acov_stages.
  destruct (ar1_system phi innov_var) as [-> ->].
  rewrite solve_ar1 by exact Hphi. cbn [mbind result_bind].
  unfold complete_cov.
  change (solved_lags {| ar := [phi]; ma := [] |}) with 1%nat.
  cbn [ar length].
  destruct (decide (maxlags ≤ Z.of_nat 1)%Z) as [Hle|Hgt].
  - rewrite slice_to by lia.
    eexists; split; [reflexivity|]. split.
    + rewrite length_take. cbn [length]. lia.
    + intros h Hh. rewrite lookup_take_lt by lia.
      destruct h as [|[|h]]; [| |lia]; cbn; f_equal; field; intros Hz; nra.
  - set (c0 := innov_var / (1 - phi ^ 2)).
    set (c1 := phi * innov_var / (1 - phi ^ 2)).
    set (L := Z.to_nat (maxlags + 1)).
    assert (Hpre : Np.set_prefix (Np.zeros L) (1 + 1) [c0; c1]
                   = Ok ([c0; c1] ++ drop 2 (Np.zeros L))).
    { unfold Np.set_prefix. rewrite length_zeros.
      replace (Nat.min (1 + 1) L) with 2%nat by lia.
      destruct (decide _) as [_|Hn]; [reflexivity|].
      exfalso. apply Hn. reflexivity. }
    rewrite Hpre. cbn [mbind result_bind].
    destruct (completion_loop [phi] ([c0; c1] ++ drop 2 (Np.zeros L)) 1 maxlags)
      as (cov & Hloop & Hlen & Hkeep & Hrec).
    + cbn. lia.
    + rewrite length_app, length_drop, length_zeros. cbn [length]. lia.
    + exists cov. split; [exact Hloop|]. split; [exact Hlen|].
      intros h. induction h as [|h IH]; intros Hh.
      * rewrite Hkeep by lia. cbn. unfold c0. f_equal. field; intros Hz; nra.
      * destruct h as [|h].
        -- rewrite Hkeep by lia. cbn. unfold c1. f_equal. field; intros Hz; nra.
        -- rewrite Hrec by lia. f_equal.
           unfold ar_recurrence. cbn [length seq map Np.sum foldr Nat.sub nth].
           rewrite nth_lookup, IH by lia. cbn [default from_option pow].
           unfold Datatypes.id. field; intros Hz; nra.
Qed.

(** C1.  For the AR(1) model with coefficient [phi], [|phi| < 1], and unit
    innovation variance, [arma_acov] returns a sequence whose entry at every
    lag [h] from 0 to [maxlag] is [phi^h / (1 - phi^2)]. *)
Theorem arma_acov_ar1_closed_form (phi : R) (maxlag : Z) (h : nat) :
  Rabs phi < 1 → (Z.of_nat h ≤ maxlag)%Z →
  ∃ cov,
    arma_acov {| ar := [phi]; ma := [] |} maxlag 1 = Ok cov
    ∧ cov !! h = Some (phi ^ h / (1 - phi ^ 2)).
Proof.
  intros Hphi Hh.
  destruct (arma_acov_ar1 phi 1 maxlag) as (cov & Hcov & _ & Hval).
  - apply Rabs_def2 in Hphi. lra.
  - lia.
  - exists cov. split; [exact Hcov|].
    rewrite Hval by exact Hh. f_equal. unfold Rdiv. ring.
Qed.

Lemma arma_acov_ar1_closed_form_witness :
  ∃ cov,
    arma_acov {| ar := [1 / 2]; ma := [] |} 5 1 = Ok cov
    ∧ cov !! 3%nat = Some ((1 / 2) ^ 3 / (1 - (1 / 2) ^ 2)).
Proof.
  apply (arma_acov_ar1_closed_form (1 / 2) 5 3).
  - rewrite Rabs_pos_eq; lra.
  - lia.
Defined.
(** ** When [arma_acov] returns *)

Lemma eliminate_length (k : nat) (rows : list Linalg.eqn) (xs : list R) :
  Linalg.eliminate k rows = Ok xs → length xs = k.
Proof.
  revert rows xs. induction k as [|k IH]; intros rows xs; cbn.
  - intros [= <-]. reflexivity.
  - destruct (Linalg.swap_rows _ _ _) as [|[prow pb] rest]; [discriminate|].
    destruct (Req_dec_T _ _) as [_|_]; [discriminate|].
    intros H. apply bind_Ok in H as (ys & Hys & [= <-]).
    cbn. f_equal. exact (IH _ _ Hys).
Qed.

Lemma eliminate_raises (k : nat) (rows : list Linalg.eqn) (e : Exc) :
  Linalg.eliminate k rows = Raise e → e = LinAlgError.
Proof.
  revert rows. induction k as [|k IH]; intros rows; cbn.
  - discriminate.
  - destruct (Linalg.swap_rows _ _ _) as [|[prow pb] rest].
    + intros [= <-]. reflexivity.
    + destruct (Req_dec_T _ _) as [_|_].
      * intros [= <-]. reflexivity.
      * destruct (Linalg.eliminate k _) as [ys|e'] eqn:Hys; cbn.
        -- discriminate.
        -- intros [= <-]. exact (IH _ Hys).
Qed.

Lemma solve_length (A : list (list R)) (b xs : list R) :
  Linalg.solve A b = Ok xs → length xs = length A.
Proof.
  unfold Linalg.solve. destruct (decide _) as [_|_]; [|discriminate].
  apply eliminate_length.
Qed.

Lemma solve_raises (A : list (list R)) (b : list R) (e : Exc) :
  Linalg.solve A b = Raise e → e = LinAlgError.
Proof.
  unfold Linalg.solve. destruct (decide _) as [_|_].
  - apply eliminate_raises.
  - intros [= <-]. reflexivity.
Qed.

Lemma length_system_matrix (model : Model) :
  length (system_matrix model) = (solved_lags model + 1)%nat.
Proof.
  unfold system_matrix, Linalg.hstack, Linalg.add, Linalg.fliplr,
    Linalg.hsplit, Linalg.toeplitz.
  cbn [fst snd].
  rewrite !length_zip_with, !length_map, length_seq, length_insert, length_zeros.
  lia.
Qed.

(** Given the solution of the linear system, the completion returns. *)
Lemma complete_cov_returns (model : Model) (maxlags : Z) (cov_n : list R) :
  length cov_n = (solved_lags model + 1)%nat →
  ∃ cov, complete_cov model maxlags cov_n = Ok cov.
Proof.
  intros Hn. unfold complete_cov.
  destruct (decide _) as [Hle|Hgt]; [eauto|].
  assert (Hpre : Np.set_prefix (Np.zeros (Z.to_nat (maxlags + 1)))
                   (solved_lags model + 1) cov_n
                 = Ok (cov_n ++ drop (solved_lags model + 1)
                                  (Np.zeros (Z.to_nat (maxlags + 1))))).
  { unfold Np.set_prefix. rewrite length_zeros.
    rewrite Nat.min_l by lia.
    destruct (decide _) as [_|Hne]; [reflexivity|contradiction]. }
  rewrite Hpre. cbn [mbind result_bind].
  destruct (completion_loop (ar model)
              (cov_n ++ drop (solved_lags model + 1)
                         (Np.zeros (Z.to_nat (maxlags + 1))))
              (solved_lags model) maxlags) as (cov & Hloop & _).
  - apply solved_lags_ar.
  - rewrite length_app, length_drop, length_zeros. lia.
  - eauto.
Qed.

(** [arma_acov] returns a sequence unless the linear system is singular:
    the only exception it can raise is [LinAlgError]. *)
Lemma arma_acov_returns_or_singular (model : Model) (maxlags : Z)
    (innov_var : R) :
  (∃ cov, arma_acov model maxlags innov_var = Ok cov)
  ∨ arma_acov model maxlags innov_var = Raise LinAlgError.
Proof.
  rewrite arma_acov_stages.
  destruct (Linalg.solve _ _) as [cov_n|e] eqn:Hsolve; cbn [mbind result_bind].
  - left. apply complete_cov_returns.
    rewrite (solve_length _ _ _ Hsolve). apply length_system_matrix.
  - right. rewrite (solve_raises _ _ _ Hsolve). reflexivity.
Qed.

(** C2.  For every ARMA model and every largest lag beyond
    [n = max(p, q + 1)], the sequence returned by [arma_acov] has
    [maxlags + 1] entries and satisfies the AR recurrence
    [cov(i) = sum_{k=1}^{p} ar_coef[k] * cov(i-k)] at every lag [i] with
    [n + 1 <= i <= maxlags]; for a pure MA model these entries are 0. *)
Theorem arma_acov_extension_recurrence (model : Model) (maxlags : Z)
    (innov_var : R) (cov : list R) (i : nat) :
  let n := Nat.max (length (ar model)) (length (ma model) + 1) in
  (Z.of_nat n < maxlags)%Z →
  arma_acov model maxlags innov_var = Ok cov →
  (n + 1 ≤ i)%nat → (Z.of_nat i ≤ maxlags)%Z →
  length cov = Z.to_nat (maxlags + 1)
  ∧ cov !! i = Some (ar_recurrence (ar model) cov i)
  ∧ (ar model = [] → cov !! i = Some 0).
Proof.
  intros n Hm Hcov Hi Him.
  destruct (arma_acov_beyond model maxlags innov_var cov Hm Hcov)
    as (cov_n & cov0 & _ & _ & Hlen & _ & Hrec).
  fold n in Hi. unfold solved_lags in Hrec. fold n in Hrec.
  split; [exact Hlen|]. split.
  - apply Hrec; lia.
  - intros Har. rewrite Hrec by lia. rewrite Har. reflexivity.
Qed.

(** ** The MA(1) model *)

Lemma ma1_system (theta innov_var : R) :
  system_matrix {| ar := []; ma := [theta] |}
    = [[1; 0; 0]; [0; 1; 0]; [0; 0; 1]]
  ∧ system_rhs {| ar := []; ma := [theta] |} innov_var
    = [(1 + theta ^ 2) * innov_var; theta * innov_var; 0].
Proof.
  split.
  - vm_compute. eq_entries; lra.
  - vm_compute. eq_entries; field.
Qed.

(** Decide the comparisons of the elimination when both sides are known
    numbers. *)
Ltac abs_lra :=
  unfold Rabs in *; repeat destruct (Rcase_abs _); lra.

Ltac decide_pivots :=
  repeat match goal with
  | |- context [Rlt_dec ?a ?b] =>
      destruct (Rlt_dec a b) as [?|?]; [try (exfalso; abs_lra)|try (exfalso; abs_lra)]
  | |- context [Req_dec_T ?a ?b] =>
      destruct (Req_dec_T a b) as [?|?]; [try (exfalso; lra)|try (exfalso; lra)]
  end.

Ltac eliminate_step :=
  cbn [zip zip_with Linalg.eliminate Linalg.pivot_row map Linalg.argmax_abs
       fst snd hd tl Linalg.reduce];
  decide_pivots;
  cbn [Linalg.swap_rows lookup list_lookup list_insert insert hd tl];
  decide_pivots.

Lemma solve_identity3 (b0 b1 b2 : R) :
  Linalg.solve [[1; 0; 0]; [0; 1; 0]; [0; 0; 1]] [b0; b1; b2]
  = Ok [b0; b1; b2].
Proof.
  unfold Linalg.solve. cbn [length].
  destruct (decide _) as [_|Hn].
  2:{ exfalso. apply Hn. split; [reflexivity|]. repeat constructor. }
  repeat (progress eliminate_step).
  cbn [Linalg.eliminate mbind result_bind Sig.dot zip_with Np.sum foldr tl].
  eq_entries; field.
Qed.

(** The autocovariance of an MA(1) model vanishes beyond lag 1; here up to
    lag 4, two lags beyond the solved ones. *)
Lemma arma_acov_ma1 (theta : R) :
  arma_acov {| ar := []; ma := [theta] |} 4 1
  = Ok [1 + theta ^ 2; theta; 0; 0; 0].
Proof.
  rewrite arma_acov_stages.
  destruct (ma1_system theta 1) as [-> ->].
  rewrite solve_identity3. cbn [mbind result_bind].
  unfold complete_cov.
  change (solved_lags {| ar := []; ma := [theta] |}) with 2%nat.
  destruct (decide _) as [?|_]; [lia|].
  vm_compute. eq_entries; lra.
Qed.

Lemma arma_acov_extension_recurrence_witness :
  (∃ cov,
     arma_acov {| ar := [1 / 2]; ma := [] |} 3 1 = Ok cov
     ∧ length cov = Z.to_nat (3 + 1)
     ∧ cov !! 3%nat = Some (ar_recurrence [1 / 2] cov 3))
  ∧ (length [1 + (1 / 2) ^ 2; 1 / 2; 0; 0; 0] = Z.to_nat (4 + 1)
     ∧ [1 + (1 / 2) ^ 2; 1 / 2; 0; 0; 0] !! 4%nat
       = Some (ar_recurrence [] [1 + (1 / 2) ^ 2; 1 / 2; 0; 0; 0] 4)
     ∧ [1 + (1 / 2) ^ 2; 1 / 2; 0; 0; 0] !! 4%nat = Some 0).
Proof.
  split.
  - destruct (arma_acov_ar1 (1 / 2) 1 3) as (cov & Hcov & _); [lra|lia|].
    exists cov. split; [exact Hcov|].
    destruct (arma_acov_extension_recurrence
                {| ar := [1 / 2]; ma := [] |} 3 1 cov 3) as (Hl & Hr & _).
    + cbn. lia.
    + exact Hcov.
    + cbn. lia.
    + lia.
    + split; [exact Hl|exact Hr].
  - destruct (arma_acov_extension_recurrence
                {| ar := []; ma := [1 / 2] |} 4 1
                [1 + (1 / 2) ^ 2; 1 / 2; 0; 0; 0] 4) as (Hl & Hr & Hz).
    + cbn. lia.
    + apply arma_acov_ma1.
    + cbn. lia.
    + lia.
    + split; [exact Hl|]. split; [exact Hr|]. apply Hz. reflexivity.
Defined.
(** ** The regression of the first guess *)

Lemma zip_with_map_seq {A : Type} (f : A → R → A) (g : nat → A) (v : list R)
    (m : nat) :
  length v = m →
  zip_with f (map g (seq 0 m)) v = map (λ t, f (g t) (nth t v 0)) (seq 0 m).
Proof.
  revert g v. induction m as [|m IH]; intros g v Hv.
  - reflexivity.
  - destruct v as [|u v]; [discriminate|].
    cbn [seq map zip_with nth]. f_equal.
    rewrite <- seq_shift, !map_map. apply IH. cbn in Hv. lia.
Qed.

(** The loop over the columns builds the design matrix of the
    specification. *)
Lemma regressors_spec (x : list R) (p : nat) :
  (p ≤ length x)%nat →
  regressors x (Z.of_nat p) = Ok (lagged_design x p, trimmed_target x p).
Proof.
  intros Hp. unfold regressors. set (N := length x) in *.
  unfold Np2.zeros. destruct (decide _) as [_|?]; [|lia].
  cbn [mbind result_bind]. rewrite Nat2Z.id.
  replace (Z.to_nat (Z.of_nat N - Z.of_nat p)) with (N - p)%nat by lia.
  destruct (for_each_invariant
    (λ X i,
       Np2.set_column p X i
         (slice x (Some (i + 1)%Z)
                  (Some (Z.of_nat N - Z.of_nat p + i + 1)%Z)))
    (λ k X,
       X = map (λ t, map (λ i, nth (t + i + 1) x 0) (seq 0 k)
                     ++ Np.zeros (p - k))
               (seq 0 (N - p)))
    (range 0 (Z.of_nat p))
    (replicate (N - p) (Np.zeros p))) as (X & HX & HI).
  - cbn [seq map app]. rewrite Nat.sub_0_r.
    generalize 0%nat. induction (N - p)%nat as [|m IH]; intros a.
    + reflexivity.
    + cbn [replicate seq map]. f_equal. apply IH.
  - intros k b X0 Hk ->. apply lookup_seqZ in Hk as [-> Hk].
    rewrite Z.add_0_l. unfold Np2.set_column.
    rewrite index_nat by lia. cbn [mbind result_bind].
    rewrite slice_between by (fold N; lia).
    replace (Z.to_nat (Z.of_nat N - Z.of_nat p + Z.of_nat k + 1 - (Z.of_nat k + 1)))
      with (N - p)%nat by lia.
    replace (Z.to_nat (Z.of_nat k + 1)) with (k + 1)%nat by lia.
    assert (Hl : length (take (N - p) (drop (k + 1) x)) = (N - p)%nat).
    { rewrite length_take, length_drop. fold N. lia. }
    rewrite Hl, length_map, length_seq.
    destruct (decide _) as [_|?]; [|contradiction].
    eexists; split; [reflexivity|].
    rewrite zip_with_map_seq by exact Hl.
    apply map_ext_in. intros t Ht. apply in_seq in Ht.
    rewrite insert_app_r_alt by (rewrite length_map, length_seq; lia).
    rewrite length_map, length_seq, Nat.sub_diag.
    replace (p - k)%nat with (S (p - S k)) by lia.
    rewrite seq_S, map_app, <- app_assoc. cbn [map app].
    f_equal. cbn [Np.zeros replicate insert list_insert]. f_equal.
    rewrite nth_firstn, nth_skipn.
    destruct (Nat.ltb_spec t (N - p)) as [_|?]; [|lia].
    f_equal. lia.
  - rewrite HX. cbn [mbind result_bind]. f_equal. f_equal.
    + rewrite HI. unfold range. rewrite length_seqZ.
      replace (Z.to_nat (Z.of_nat p - 0)) with p by lia.
      unfold lagged_design. fold N.
      apply map_ext. intros t. rewrite Nat.sub_diag. apply app_nil_r.
    + unfold trimmed_target. fold N.
      rewrite slice_to by lia. f_equal. lia.
Qed.

(** ** The fit and its residual variance *)

Lemma acov_lag0 (x : list R) : acov x 0 None = Ok [autocov x 0].
Proof. rewrite acov_dense by lia. reflexivity. Qed.

(** With a largest lag of 0, [arma_acov] returns the lag-0 covariance
    alone. *)
Lemma arma_acov_lag0 (model : Model) (innov_var : R) (cov : list R) :
  arma_acov model 0 innov_var = Ok cov → ∃ c, cov = [c].
Proof.
  intros H. rewrite arma_acov_stages in H.
  apply bind_Ok in H as (cov_n & Hsolve & H).
  apply solve_length in Hsolve. rewrite length_system_matrix in Hsolve.
  unfold complete_cov in H.
  destruct (decide _) as [_|?]; [|lia].
  injection H as <-. rewrite slice_to by lia.
  destruct cov_n as [|c cov_n]; [cbn in Hsolve; lia|].
  exists c. reflexivity.
Qed.

Section FitProperties.

Variable lstsq : list (list R) → list R → Result (list R).
Variable fmin : (list R → Result R) → list R → Result (list R).

(** The fit, once the coefficients are known: everything after the choice
    between the seed and the optimizer. *)
Lemma ar_acf_fit_rescale (x : list R) (p : Z) (maxlags : option Z)
    (coef : list R) (res_var : R) :
  ar_acf_fit lstsq fmin x p maxlags = Ok (coef, res_var) →
  ∃ c_m, arma_acov {| ar := coef; ma := [] |} 0 1 = Ok [c_m]
         ∧ res_var = autocov x 0 / c_m.
Proof.
  intros H. unfold ar_acf_fit in H.
  apply bind_Ok in H as (_ & _ & H).
  apply bind_Ok in H as (Xy & _ & H).
  apply bind_Ok in H as (coef0 & _ & H).
  apply bind_Ok in H as (coef' & _ & H).
  rewrite acov_lag0 in H. cbn [mbind result_bind] in H.
  apply bind_Ok in H as (cov_m & Hm & H).
  destruct (arma_acov_lag0 _ _ _ Hm) as (c_m & ->).
  cbn in H. injection H as <- <-.
  exists c_m. split; [exact Hm|reflexivity].
Qed.

(** Without a largest lag, a fit that returns has returned the seed. *)
Lemma ar_acf_fit_seed_only (x : list R) (p : Z) (coef : list R) (res_var : R) :
  ar_acf_fit lstsq fmin x p None = Ok (coef, res_var) →
  (0 ≤ p ≤ Z.of_nat (length x))%Z
  ∧ lstsq (lagged_design x (Z.to_nat p)) (trimmed_target x (Z.to_nat p))
    = Ok coef.
Proof.
  intros H. unfold ar_acf_fit in H.
  apply bind_Ok in H as (u & Hp & H).
  unfold assert in Hp. destruct (decide (0 ≤ p)%Z) as [Hp0|?]; [|discriminate].
  apply bind_Ok in H as (Xy & HXy & H).
  assert (HpN : (p ≤ Z.of_nat (length x))%Z).
  { unfold regressors, Np2.zeros in HXy.
    destruct (decide (0 ≤ Z.of_nat (length x) - p)%Z) as [?|?]; [lia|].
    discriminate. }
  rewrite <- (Z2Nat.id p) in HXy by exact Hp0.
  rewrite regressors_spec in HXy by lia. injection HXy as <-.
  apply bind_Ok in H as (coef0 & Hls & H).
  cbn [mbind result_bind] in H.
  apply bind_Ok in H as (? & _ & H).
  apply bind_Ok in H as (? & _ & H).
  apply bind_Ok in H as (? & _ & H).
  apply bind_Ok in H as (? & _ & H).
  injection H as <- _.
  split; [lia|exact Hls].
Qed.

(** The value of the fit, from the coefficients chosen and the model
    variance. *)
Lemma ar_acf_fit_value (x : list R) (p : Z) (maxlags : option Z)
    (coef0 coef : list R) (c_m : R) :
  (0 ≤ p ≤ Z.of_nat (length x))%Z →
  lstsq (lagged_design x (Z.to_nat p)) (trimmed_target x (Z.to_nat p))
    = Ok coef0 →
  match maxlags with
  | Some m => fmin (cov_objective x m) coef0
  | None => Ok coef0
  end = Ok coef →
  arma_acov {| ar := coef; ma := [] |} 0 1 = Ok [c_m] →
  ar_acf_fit lstsq fmin x p maxlags = Ok (coef, autocov x 0 / c_m).
Proof.
  intros Hp Hls Hopt Hm. unfold ar_acf_fit.
  rewrite assert_true by lia. cbn [mbind result_bind].
  replace (regressors x p) with (regressors x (Z.of_nat (Z.to_nat p)))
    by (rewrite Z2Nat.id by lia; reflexivity).
  rewrite regressors_spec by lia. cbn [mbind result_bind fst snd].
  rewrite Hls. cbn [mbind result_bind].
  rewrite Hopt. cbn [mbind result_bind].
  rewrite acov_lag0, Hm. reflexivity.
Qed.

End FitProperties.

(** C7.  When [maxlags] is [None], the optimizer is not consulted
    (whatever [fmin] is): given that the order [p] is between 0 and the
    sample length, that the least-squares routine returns [coef0] on the
    regression of the specification, and that the linear system of the
    analytic covariance of [coef0] is not singular, [ar_acf_fit] returns
    [coef0] as the AR coefficients. *)
Theorem ar_acf_fit_returns_seed
    (lstsq : list (list R) → list R → Result (list R))
    (fmin : (list R → Result R) → list R → Result (list R))
    (x : list R) (p : Z) (coef0 cov_m : list R) :
  (0 ≤ p ≤ Z.of_nat (length x))%Z →
  lstsq (lagged_design x (Z.to_nat p)) (trimmed_target x (Z.to_nat p))
    = Ok coef0 →
  arma_acov {| ar := coef0; ma := [] |} 0 1 = Ok cov_m →
  ∃ res_var, ar_acf_fit lstsq fmin x p None = Ok (coef0, res_var).
Proof.
  intros Hp Hls Hm.
  destruct (arma_acov_lag0 _ _ _ Hm) as (c_m & ->).
  exists (autocov x 0 / c_m).
  apply (ar_acf_fit_value lstsq fmin x p None coef0 coef0 c_m Hp Hls eq_refl Hm).
Qed.

Lemma ar_acf_fit_returns_seed_witness :
  ∃ res_var,
    ar_acf_fit
      (λ X y, Ok [Sig.dot (map (hd 0) X) y
                  / Sig.dot (map (hd 0) X) (map (hd 0) X)])
      (λ f x0, Ok x0)
      [1; 2; 4] 1 None
    = Ok ([1 / 2], res_var).
Proof.
  destruct (arma_acov_ar1 (1 / 2) 1 0) as (cov_m & Hm & _); [lra|lia|].
  apply (ar_acf_fit_returns_seed _ _ [1; 2; 4] 1 [1 / 2] cov_m).
  - cbn. lia.
  - vm_compute. eq_entries. lra.
  - exact Hm.
Defined.


Lemma arma_acov_ar1_lag0 (phi : R) :
  -1 < phi < 1 →
  arma_acov {| ar := [phi]; ma := [] |} 0 1 = Ok [1 / (1 - phi ^ 2)].
Proof.
  intros Hphi.
  destruct (arma_acov_ar1 phi 1 0 Hphi) as (cov & Hcov & _ & Hval); [lia|].
  destruct (arma_acov_lag0 _ _ _ Hcov) as (c & ->).
  rewrite Hcov. specialize (Hval 0%nat). cbn in Hval.
  injection Hval as ->; [|lia]. eq_entries. field. intros Hz. nra.
Qed.

(** A fit through the optimizer branch, with an optimizer that returns its
    starting point. *)
Lemma ar_acf_fit_example :
  ar_acf_fit
    (λ X y, Ok [Sig.dot (map (hd 0) X) y
                / Sig.dot (map (hd 0) X) (map (hd 0) X)])
    (λ f x0, Ok x0)
    [1; 2; 4] 1 (Some 2%Z)
  = Ok ([1 / 2], 21 / 4).
Proof.
  replace (21 / 4) with (autocov [1; 2; 4] 0 / (1 / (1 - (1 / 2) ^ 2)))
    by (unfold autocov, Np.sum; cbn; field).
  apply (ar_acf_fit_value _ _ [1; 2; 4] 1 (Some 2%Z) [1 / 2] [1 / 2]).
  - cbn. lia.
  - vm_compute. eq_entries. lra.
  - reflexivity.
  - apply arma_acov_ar1_lag0. lra.
Qed.

(** * Further properties *)

(** ** The three regimes of the torque law *)

Ltac torque_cases :=
  unfold torque_law1, damp, torque_max, power_max;
  match goal with
  | |- context [Rgt_dec (?s * 4000000) 2000000] =>
      destruct (Rgt_dec (s * 4000000) 2000000)
  end;
  match goal with
  | |- context [Rlt_dec ?a (Ropp 2000000)] => destruct (Rlt_dec a (Ropp 2000000))
  end;
  match goal with
  | |- context [Rgt_dec ?a 1100000] => destruct (Rgt_dec a 1100000)
  end.

Lemma Rabs_le_between (a b : R) : Rabs a <= b → - b <= a <= b.
Proof. unfold Rabs. destruct (Rcase_abs a); lra. Qed.

Lemma torque_law1_regimes (s : R) :
  (Rabs s <= 1 / 2 ∧ torque_law1 s = damp * s)
  ∨ (1 / 2 < Rabs s <= 11 / 20
     ∧ Rabs (torque_law1 s) = torque_max ∧ 0 < torque_law1 s * s)
  ∨ (11 / 20 < Rabs s ∧ torque_law1 s = power_max / s).
Proof.
  destruct (Rle_dec (Rabs s) (1 / 2)) as [H1|H1].
  - left. split; [exact H1|].
    apply Rabs_le_between in H1.
    assert (Hsq : s * s <= 1 / 4) by nra.
    torque_cases; try lra; exfalso; nra.
  - destruct (Rle_dec (Rabs s) (11 / 20)) as [H2|H2].
    + right; left. split; [lra|].
      apply Rabs_le_between in H2.
      assert (H1' : s < - (1 / 2) ∨ 1 / 2 < s).
      { unfold Rabs in H1. destruct (Rcase_abs s); lra. }
      torque_cases; try (exfalso; lra);
        (split; [unfold Rabs; destruct (Rcase_abs _); lra|nra]).
    + right; right. split; [lra|].
      assert (H2' : s < - (11 / 20) ∨ 11 / 20 < s).
      { unfold Rabs in H2. destruct (Rcase_abs s); lra. }
      torque_cases; try reflexivity; exfalso; nra.
Qed.

(** X1.  The torque law has three regimes.  Up to a speed of 0.5 rad/s in
    magnitude the torque is the damping [damp * speed]; from there to 0.55
    the torque has the magnitude [torque_max] and the sign of the speed;
    beyond 0.55 the torque is [power_max / speed]. *)
Theorem torque_law_three_regimes (speed : list R) (i : nat) (s : R) :
  speed !! i = Some s →
  ∃ tor, torque_law speed !! i = Some tor
    ∧ ((Rabs s <= 1 / 2 ∧ tor = damp * s)
       ∨ (1 / 2 < Rabs s <= 11 / 20 ∧ Rabs tor = torque_max ∧ 0 < tor * s)
       ∨ (11 / 20 < Rabs s ∧ tor = power_max / s)).
Proof.
  intros Hs. exists (torque_law1 s). split.
  - unfold torque_law. rewrite list_lookup_fmap, Hs. reflexivity.
  - apply torque_law1_regimes.
Qed.

Lemma torque_law_three_regimes_witness :
  ∃ tor, torque_law [0.3; 0.52; -2] !! 2%nat = Some tor
    ∧ ((Rabs (-2) <= 1 / 2 ∧ tor = damp * -2)
       ∨ (1 / 2 < Rabs (-2) <= 11 / 20 ∧ Rabs tor = torque_max ∧ 0 < tor * -2)
       ∨ (11 / 20 < Rabs (-2) ∧ tor = power_max / -2)).
Proof. apply (torque_law_three_regimes [0.3; 0.52; -2] 2 (-2)). reflexivity. Defined.

Lemma torque_law1_odd (s : R) : torque_law1 (- s) = - torque_law1 s.
Proof.
  unfold torque_law1, damp, torque_max, power_max.
  destruct (Rgt_dec (- s * 4000000) 2000000);
    destruct (Rgt_dec (s * 4000000) 2000000); try (exfalso; lra);
    repeat match goal with
    | |- context [Rlt_dec ?a (Ropp 2000000)] =>
        destruct (Rlt_dec a (Ropp 2000000)); try (exfalso; lra)
    end;
    repeat match goal with
    | |- context [Rgt_dec ?a 1100000] =>
        destruct (Rgt_dec a 1100000); try (exfalso; lra)
    end;
    try lra; try (field; intros ->; lra).
Qed.

(** X2.  The torque law is odd: reversing every speed reverses every
    torque. *)
Theorem torque_law_odd (speed : list R) :
  torque_law (map Ropp speed) = map Ropp (torque_law speed).
Proof.
  unfold torque_law. rewrite !map_map.
  apply map_ext. intros s. apply torque_law1_odd.
Qed.

(** X3.  The simulated power is always returned, has one value per speed,
    and every value lies between 0 and 1.1 MW: the law never drives the
    generator and never exceeds the rated power. *)
Theorem power_sim_bounds (speed_sim : list R) :
  ∃ P, power_sim speed_sim = Ok P
       ∧ length P = length speed_sim
       ∧ Forall (λ v, 0 <= v <= 11 / 10) P.
Proof.
  unfold power_sim, Np.mul, Np.broadcast, torque_law.
  rewrite length_map.
  destruct (decide _) as [_|?]; [|contradiction].
  cbn [mbind result_bind]. eexists; split; [reflexivity|]. split.
  - rewrite length_map, length_zip_with, length_map. lia.
  - induction speed_sim as [|s l IH]; cbn; constructor; [|exact IH].
    destruct (torque_law1_bounds s) as (_ & Hp & _).
    unfold power_max in Hp.
    assert (Hpos : 0 <= torque_law1 s * s).
    { destruct (torque_law1_regimes s) as [[H ->]|[(_ & _ & H)|[H ->]]].
      - unfold damp. nra.
      - lra.
      - unfold power_max. replace (1100000 / s * s) with 1100000; [lra|].
        field. intros ->. rewrite Rabs_R0 in H. lra. }
    lra.
Qed.
(** ** The dense autocovariance estimator, lag by lag *)

Lemma for_each_app {A B : Type} (f : A → B → Result A) (a : A) (l1 l2 : list B) :
  for_each f a (l1 ++ l2) = a' ← for_each f a l1; for_each f a' l2.
Proof.
  revert a. induction l1 as [|b l1 IH]; intros a; cbn; [reflexivity|].
  destruct (f a b) as [a'|e]; cbn; [apply IH|reflexivity].
Qed.

Lemma acov_unfold (x : list R) (maxlags : Z) (lags : option (list Z)) :
  acov x maxlags lags =
  for_each (acov_step x)
    (Np.zeros (length (default (range 0 (maxlags + 1)) lags)))
    (default (range 0 (maxlags + 1)) lags).
Proof. reflexivity. Qed.

(** A lag at least [2 N - 1] and beyond the sample pairs an empty slice
    with a slice of at most one element: the product is empty. *)
Lemma acov_product_far (x : list R) (h : nat) :
  (length x < h)%nat → (2 * length x ≤ h + 1)%nat →
  Np.mul (slice x (Some (Z.of_nat h)) None)
         (slice x None (Some (Z.of_nat (length x) - Z.of_nat h)%Z)) = Ok [].
Proof.
  intros Hh H2. rewrite slice_from by lia. rewrite Nat2Z.id.
  rewrite drop_ge by lia.
  unfold slice, bound. cbn [from_option].
  destruct (decide _) as [_|?]; [|lia].
  rewrite Nat.sub_0_r, drop_0.
  set (k := Z.to_nat _). assert (Hk : (k ≤ 1)%nat) by (unfold k; lia).
  unfold Np.mul, Np.broadcast.
  destruct (take k x) as [|v [|w l]] eqn:Ht.
  - reflexivity.
  - reflexivity.
  - apply (f_equal length) in Ht. rewrite length_take in Ht. cbn in Ht. lia.
Qed.

Lemma autocov_beyond (x : list R) (h : nat) :
  (length x ≤ h)%nat → autocov x h = 0.
Proof.
  intros Hh. unfold autocov.
  replace (length x - h)%nat with 0%nat by lia.
  cbn. unfold Rdiv. apply Rmult_0_l.
Qed.

Lemma acov_step_ok (x : list R) (acc : list R) (h : nat) :
  (h ≤ length x ∨ 2 * length x ≤ h + 1)%nat → (h < length acc)%nat →
  acov_step x acc (Z.of_nat h) = Ok (<[h:=autocov x h]> acc).
Proof.
  intros Hh Hacc. unfold acov_step.
  destruct (decide (h ≤ length x)%nat) as [Hle|Hgt].
  - destruct (acov_product x h Hle) as (prod & -> & Hp).
    cbn [mbind result_bind]. rewrite Hp. apply setitem_nat, Hacc.
  - rewrite acov_product_far by lia. cbn [mbind result_bind].
    rewrite autocov_beyond by lia.
    replace (Np.sum [] / INR (length x)) with 0
      by (cbn; unfold Rdiv; rewrite Rmult_0_l; reflexivity).
    apply setitem_nat, Hacc.
Qed.

(** The first [K] iterations of the loop, when none of them raises. *)
Lemma acov_loop (x : list R) (M K : nat) :
  (K ≤ M)%nat →
  (∀ h, (h < K)%nat → (h ≤ length x ∨ 2 * length x ≤ h + 1)%nat) →
  for_each (acov_step x) (Np.zeros M) (range 0 (Z.of_nat K))
  = Ok (map (autocov x) (seq 0 K) ++ Np.zeros (M - K)).
Proof.
  intros HK Hok.
  destruct (for_each_invariant (acov_step x)
    (λ k acc, acc = map (autocov x) (seq 0 k) ++ Np.zeros (M - k))
    (range 0 (Z.of_nat K)) (Np.zeros M)) as (r & Hr & HI).
  - cbn. rewrite Nat.sub_0_r. reflexivity.
  - intros k b s Hk ->. apply lookup_seqZ in Hk as [-> Hk].
    rewrite Z.add_0_l.
    rewrite acov_step_ok.
    + eexists; split; [reflexivity|].
      rewrite insert_app_r_alt by (rewrite length_map, length_seq; lia).
      rewrite length_map, length_seq, Nat.sub_diag.
      replace (M - k)%nat with (S (M - S k)) by lia.
      rewrite seq_S, map_app, <- app_assoc. reflexivity.
    + apply Hok. lia.
    + rewrite length_app, length_map, length_seq, length_zeros. lia.
  - rewrite Hr, HI. unfold range. rewrite length_seqZ.
    replace (Z.to_nat (Z.of_nat K - 0)) with K by lia. reflexivity.
Qed.

(** X4.  For a non-empty sample and a largest lag that is within the
    sample, or whatever the largest lag when the sample has at most two
    elements, the dense estimator returns [maxlags + 1] values, the one at
    lag [h] being [(1/N) * sum_{t < N-h} x[t] * x[t+h]]. *)
Theorem acov_dense_values (x : list R) (maxlags : Z) :
  x ≠ [] → (0 ≤ maxlags)%Z →
  (maxlags ≤ Z.of_nat (length x))%Z ∨ (length x ≤ 2)%nat →
  acov x maxlags None = Ok (map (autocov x) (seq 0 (Z.to_nat (maxlags + 1)))).
Proof.
  intros Hx Hm Hcase. rewrite acov_unfold. cbn [default].
  unfold range at 1. rewrite length_seqZ.
  replace (Z.to_nat (maxlags + 1 - 0)) with (Z.to_nat (maxlags + 1)) by lia.
  replace (maxlags + 1)%Z with (Z.of_nat (Z.to_nat (maxlags + 1))) at 2 by lia.
  rewrite acov_loop.
  - rewrite Nat.sub_diag. cbn. rewrite app_nil_r. reflexivity.
  - lia.
  - intros h Hh. destruct x as [|a [|b [|c x]]]; cbn [length] in *; lia.
Qed.

Lemma acov_dense_values_witness :
  acov [1; 2] 4 None = Ok (map (autocov [1; 2]) (seq 0 (Z.to_nat (4 + 1)))).
Proof.
  apply (acov_dense_values [1; 2] 4).
  - discriminate.
  - lia.
  - right. cbn. lia.
Defined.

(** X5.  For a sample of at least three elements and a largest lag beyond
    the sample length, the dense estimator raises [ValueError]: at lag
    [N + 1] the empty slice [x[N+1:]] meets the slice [x[:-1]] of [N - 1]
    elements, which cannot be broadcast. *)
Theorem acov_beyond_sample_raises (x : list R) (maxlags : Z) :
  (3 ≤ length x)%nat → (Z.of_nat (length x) < maxlags)%Z →
  acov x maxlags None = Raise ValueError.
Proof.
  intros HN Hm. rewrite acov_unfold. cbn [default].
  set (N := length x) in *.
  set (M := length (range 0 (maxlags + 1))).
  assert (HM : M = Z.to_nat (maxlags + 1)).
  { unfold M, range. rewrite length_seqZ. f_equal. lia. }
  unfold range.
  replace (maxlags + 1 - 0)%Z
    with (Z.of_nat (S N) + (1 + (maxlags - Z.of_nat N - 1)))%Z by lia.
  rewrite seqZ_app by lia. rewrite for_each_app.
  change (seqZ 0 (Z.of_nat (S N))) with (seqZ 0 (Z.of_nat (S N) - 0 + 0)).
  replace (seqZ 0 (Z.of_nat (S N) - 0 + 0)) with (range 0 (Z.of_nat (S N)))
    by (unfold range; f_equal; lia).
  rewrite acov_loop by (fold N; lia).
  cbn [mbind result_bind].
  rewrite seqZ_app by lia. rewrite for_each_app.
  rewrite (seqZ_cons _ 1) by lia. cbn [Z.pred seqZ for_each].
  replace (seqZ (Z.succ (0 + Z.of_nat (S N))) (Z.pred 1)) with (@nil Z)
    by reflexivity.
  cbn [for_each].
  assert (Hraise : ∀ acc, acov_step x acc (0 + Z.of_nat (S N)) = Raise ValueError).
  { intros acc. unfold acov_step. fold N.
    rewrite Z.add_0_l.
    rewrite slice_from by lia. rewrite Nat2Z.id.
    rewrite drop_ge by (fold N; lia).
    unfold slice, bound. cbn [from_option]. fold N.
    destruct (decide _) as [_|?]; [|lia].
    rewrite Nat.sub_0_r, drop_0.
    replace (Z.to_nat _) with (N - 1)%nat by lia.
    unfold Np.mul, Np.broadcast.
    destruct (take (N - 1) x) as [|v [|w l]] eqn:Ht;
      apply (f_equal length) in Ht; rewrite length_take in Ht;
      fold N in Ht; cbn in Ht; try lia.
    reflexivity. }
  rewrite Hraise. reflexivity.
Qed.

Lemma acov_beyond_sample_raises_witness :
  acov [1; 2; 3] 4 None = Raise ValueError.
Proof.
  apply (acov_beyond_sample_raises [1; 2; 3] 4); cbn; lia.
Defined.
(** ** The autocorrelation stays within [-1, 1] *)

Lemma sum_le {A : Type} (f g : A → R) (l : list A) :
  (∀ a, a ∈ l → f a <= g a) → Np.sum (map f l) <= Np.sum (map g l).
Proof.
  unfold Np.sum. induction l as [|a l IH]; intros H; cbn; [lra|].
  assert (f a <= g a) by (apply H; left).
  assert (foldr Rplus 0 (map f l) <= foldr Rplus 0 (map g l)).
  { apply IH. intros b Hb. apply H. right. exact Hb. }
  lra.
Qed.

Lemma sum_nonneg {A : Type} (f : A → R) (l : list A) :
  (∀ a, a ∈ l → 0 <= f a) → 0 <= Np.sum (map f l).
Proof.
  unfold Np.sum. induction l as [|a l IH]; intros H; cbn; [lra|].
  assert (0 <= f a) by (apply H; left).
  assert (0 <= foldr Rplus 0 (map f l)).
  { apply IH. intros b Hb. apply H. right. exact Hb. }
  lra.
Qed.

Lemma sum_plus {A : Type} (f g : A → R) (l : list A) :
  Np.sum (map (λ a, f a + g a) l) = Np.sum (map f l) + Np.sum (map g l).
Proof.
  unfold Np.sum. induction l as [|a l IH]; cbn; [lra|]. rewrite IH. lra.
Qed.

Lemma sum_scal {A : Type} (c : R) (f : A → R) (l : list A) :
  Np.sum (map (λ a, c * f a) l) = c * Np.sum (map f l).
Proof.
  unfold Np.sum. induction l as [|a l IH]; cbn; [lra|]. rewrite IH. lra.
Qed.

Lemma map_seq_shift {A : Type} (f : nat → A) (h n : nat) :
  map f (seq h n) = map (λ t, f (t + h)%nat) (seq 0 n).
Proof.
  induction h as [|h IH] in f |- *.
  - apply map_ext. intros t. rewrite Nat.add_0_r. reflexivity.
  - rewrite <- seq_shift, map_map, IH.
    apply map_ext. intros t. f_equal. lia.
Qed.

Lemma two_products (a b : R) :
  2 * (a * b) <= a * a + b * b ∧ -2 * (a * b) <= a * a + b * b.
Proof.
  pose proof (Rle_0_sqr (a - b)) as H1. pose proof (Rle_0_sqr (a + b)) as H2.
  unfold Rsqr in *. lra.
Qed.

(** The sum of the lagged products is bounded by the sum of the squares. *)
Lemma lagged_sum_bound (x : list R) (h : nat) :
  let S0 := Np.sum (map (λ t, nth t x 0 * nth t x 0) (seq 0 (length x))) in
  let Sh := Np.sum (map (λ t, nth t x 0 * nth (t + h) x 0)
                        (seq 0 (length x - h))) in
  - S0 <= Sh <= S0.
Proof.
  intros S0 Sh. set (N := length x) in *.
  set (sq := λ t : nat, nth t x 0 * nth t x 0).
  destruct (decide (h ≤ N)%nat) as [Hh|Hh].
  2:{ assert (HS0 : 0 <= S0) by (apply sum_nonneg; intros t _; nra).
      unfold Sh. replace (N - h)%nat with 0%nat by lia. cbn. lra. }
  assert (H1 : Np.sum (map sq (seq 0 (N - h))) <= S0).
  { unfold S0. replace N with ((N - h) + h)%nat at 2 by lia.
    rewrite seq_app, map_app, sum_app. fold sq.
    assert (0 <= Np.sum (map sq (seq (0 + (N - h)) h)))
      by (apply sum_nonneg; intros t _; unfold sq; nra).
    lra. }
  assert (H2 : Np.sum (map (λ t, sq (t + h)%nat) (seq 0 (N - h))) <= S0).
  { unfold S0. replace N with (h + (N - h))%nat at 2 by lia.
    rewrite seq_app, map_app, sum_app. fold sq.
    cbn [Nat.add]. rewrite (map_seq_shift sq h).
    assert (0 <= Np.sum (map sq (seq 0 h)))
      by (apply sum_nonneg; intros t _; unfold sq; nra).
    lra. }
  assert (Hup : 2 * Sh <= Np.sum (map sq (seq 0 (N - h)))
                          + Np.sum (map (λ t, sq (t + h)%nat) (seq 0 (N - h)))).
  { rewrite <- sum_plus. unfold Sh. rewrite <- sum_scal.
    apply sum_le. intros t _. unfold sq. apply two_products. }
  assert (Hlo : - (2 * Sh) <= Np.sum (map sq (seq 0 (N - h)))
                          + Np.sum (map (λ t, sq (t + h)%nat) (seq 0 (N - h)))).
  { rewrite <- sum_plus. unfold Sh.
    replace (- (2 * Np.sum (map (λ t, nth t x 0 * nth (t + h) x 0) (seq 0 (N - h)))))
      with (-2 * Np.sum (map (λ t, nth t x 0 * nth (t + h) x 0) (seq 0 (N - h))))
      by lra.
    rewrite <- sum_scal.
    apply sum_le. intros t _. unfold sq. apply two_products. }
  lra.
Qed.

Lemma autocov_bound (x : list R) (h : nat) :
  0 < autocov x 0 → -1 <= autocov x h / autocov x 0 <= 1.
Proof.
  intros H0. pose proof (lagged_sum_bound x h) as Hb. cbv zeta in Hb.
  unfold autocov in *. rewrite Nat.sub_0_r in H0 |- *.
  set (S0 := Np.sum (map (λ t, nth t x 0 * nth (t + 0) x 0) (seq 0 (length x)))) in *.
  assert (HS : S0 = Np.sum (map (λ t, nth t x 0 * nth t x 0) (seq 0 (length x)))).
  { unfold S0. apply sum_ext. intros t _. rewrite Nat.add_0_r. reflexivity. }
  rewrite <- HS in Hb.
  set (Sh := Np.sum (map (λ t, nth t x 0 * nth (t + h) x 0) (seq 0 (length x - h)))) in *.
  set (n := INR (length x)) in *.
  assert (Hn : 0 <= n) by apply pos_INR.
  assert (Hn0 : n ≠ 0).
  { intros Hz. rewrite Hz in H0. unfold Rdiv in H0. rewrite Rinv_0 in H0. lra. }
  assert (HS0 : 0 < S0).
  { unfold Rdiv in H0.
    assert (0 < / n) by (apply Rinv_0_lt_compat; lra). nra. }
  replace (Sh / n / (S0 / n)) with (Sh / S0) by (field; split; lra).
  split.
  - apply (Rmult_le_reg_r S0); [exact HS0|].
    replace (Sh / S0 * S0) with Sh by (field; lra). lra.
  - apply (Rmult_le_reg_r S0); [exact HS0|].
    replace (Sh / S0 * S0) with Sh by (field; lra). lra.
Qed.

(** X6.  For a largest lag within the sample and a strictly positive
    lag-0 autocovariance, every value of the autocorrelation lies between
    -1 and 1. *)
Theorem acf_within_unit (x : list R) (maxlags : Z) :
  (0 ≤ maxlags ≤ Z.of_nat (length x))%Z → 0 < autocov x 0 →
  ∃ r, acf x maxlags None = Ok r ∧ Forall (λ v, -1 <= v <= 1) r.
Proof.
  intros Hm H0. rewrite acf_dense by exact Hm.
  eexists; split; [reflexivity|].
  apply Forall_forall. intros v Hv. apply list_elem_of_In, in_map_iff in Hv as (h & <- & _).
  apply autocov_bound, H0.
Qed.

Lemma acf_within_unit_witness :
  ∃ r, acf [1; -2; 3] 2 None = Ok r ∧ Forall (λ v, -1 <= v <= 1) r.
Proof.
  apply (acf_within_unit [1; -2; 3] 2).
  - cbn. lia.
  - unfold autocov. cbn. lra.
Defined.

(** X7.  A negative largest lag makes [acf] raise [IndexError]: [acov]
    returns the empty sequence and the normalisation reads its entry 0. *)
Theorem acf_negative_maxlags (x : list R) (maxlags : Z) :
  (maxlags < 0)%Z → acf x maxlags None = Raise IndexError.
Proof.
  intros Hm. unfold acf. rewrite acov_negative by exact Hm. reflexivity.
Qed.

Lemma acf_negative_maxlags_witness : acf [1; 2; 3] (-1) None = Raise IndexError.
Proof. apply (acf_negative_maxlags [1; 2; 3] (-1)). lia. Defined.

(** ** Scaling the signal *)

Lemma autocov_scale (c : R) (x : list R) (h : nat) :
  autocov (map (Rmult c) x) h = c ^ 2 * autocov x h.
Proof.
  unfold autocov. rewrite length_map.
  unfold Rdiv. rewrite <- Rmult_assoc. f_equal.
  rewrite <- sum_scal. apply sum_ext. intros t _.
  assert (Hn : ∀ k, nth k (map (Rmult c) x) 0 = c * nth k x 0).
  { intros k. rewrite <- (map_nth (Rmult c)). f_equal. lra. }
  rewrite !Hn. ring.
Qed.

(** X8.  Multiplying the signal by [c] multiplies its autocovariance by
    [c^2], and, for [c <> 0] and a non-zero lag-0 autocovariance, leaves
    its autocorrelation unchanged. *)
Theorem acf_scale_invariant (c : R) (x : list R) (maxlags : Z) :
  (0 ≤ maxlags ≤ Z.of_nat (length x))%Z → c ≠ 0 → autocov x 0 ≠ 0 →
  acov (map (Rmult c) x) maxlags None
    = map (Rmult (c ^ 2)) <$> acov x maxlags None
  ∧ acf (map (Rmult c) x) maxlags None = acf x maxlags None.
Proof.
  intros Hm Hc H0. split.
  - rewrite !acov_dense by (rewrite ?length_map; exact Hm).
    cbn [fmap result_fmap]. f_equal. rewrite map_map.
    apply map_ext. intros h. apply autocov_scale.
  - rewrite !acf_dense by (rewrite ?length_map; exact Hm).
    f_equal. apply map_ext. intros h. rewrite !autocov_scale.
    field. split; [exact H0|]. exact Hc.
Qed.

Lemma acf_scale_invariant_witness :
  acov (map (Rmult 3) [1; 2; 4]) 2 None
    = map (Rmult (3 ^ 2)) <$> acov [1; 2; 4] 2 None
  ∧ acf (map (Rmult 3) [1; 2; 4]) 2 None = acf [1; 2; 4] 2 None.
Proof.
  apply (acf_scale_invariant 3 [1; 2; 4] 2).
  - cbn. lia.
  - lra.
  - unfold autocov. cbn. lra.
Defined.
(** ** What [arma_acov] returns, whatever the largest lag *)

(** X9.  The only exception [arma_acov] can raise is [LinAlgError], from
    the solution of the linear system: its two assertions always hold and
    no index or shape error can occur. *)
Theorem arma_acov_raises_only_LinAlgError (model : Model) (maxlags : Z)
    (innov_var : R) (e : Exc) :
  arma_acov model maxlags innov_var = Raise e → e = LinAlgError.
Proof.
  intros H.
  destruct (arma_acov_returns_or_singular model maxlags innov_var)
    as [(cov & Hcov)|Hs]; congruence.
Qed.

Lemma arma_acov_raises_only_LinAlgError_witness :
  @eq Exc LinAlgError LinAlgError.
Proof.
  apply (arma_acov_raises_only_LinAlgError {| ar := [1]; ma := [] |} 3 1).
  rewrite arma_acov_stages.
  assert (Hs : Linalg.solve (system_matrix {| ar := [1]; ma := [] |})
                 (system_rhs {| ar := [1]; ma := [] |} 1) = Raise LinAlgError).
  { destruct (ar1_system 1 1) as [-> ->].
    unfold Linalg.solve. cbn [length].
    destruct (decide _) as [_|Hn].
    2:{ exfalso. apply Hn. split; [reflexivity|]. repeat constructor. }
    repeat (progress eliminate_step); reflexivity. }
  rewrite Hs. reflexivity.
Defined.

(** The completion, entry by entry. *)
Lemma complete_cov_entries (model : Model) (maxlags : Z) (cov_n cov : list R) :
  length cov_n = (solved_lags model + 1)%nat → (0 ≤ maxlags + 1)%Z →
  complete_cov model maxlags cov_n = Ok cov →
  length cov = Z.to_nat (maxlags + 1)
  ∧ (∀ j : nat, (j ≤ solved_lags model)%nat → (Z.of_nat j ≤ maxlags)%Z →
       cov !! j = cov_n !! j)
  ∧ (∀ i : nat, (solved_lags model < i)%nat → (Z.of_nat i ≤ maxlags)%Z →
       cov !! i = Some (ar_recurrence (ar model) cov i)).
Proof.
  intros Hn Hm H. unfold complete_cov in H.
  destruct (decide _) as [Hle|Hgt].
  - injection H as <-. rewrite slice_to by lia. split; [|split].
    + rewrite length_take. lia.
    + intros j Hj Hjm. apply lookup_take_lt. lia.
    + intros i Hi Him. lia.
  - apply bind_Ok in H as (cov0 & Hpre & H).
    assert (Hcov0 : cov0 = cov_n ++ drop (solved_lags model + 1)
                                      (Np.zeros (Z.to_nat (maxlags + 1)))).
    { unfold Np.set_prefix in Hpre. rewrite length_zeros in Hpre.
      rewrite Nat.min_l in Hpre by lia.
      destruct (decide _) as [_|?]; [|contradiction].
      injection Hpre as <-. reflexivity. }
    destruct (completion_loop (ar model) cov0 (solved_lags model) maxlags)
      as (cov' & Hloop & Hlen & Hkeep & Hrec).
    + apply solved_lags_ar.
    + rewrite Hcov0, length_app, length_drop, length_zeros. lia.
    + rewrite Hloop in H. injection H as <-.
      split; [exact Hlen|]. split; [|exact Hrec].
      intros j Hj _. rewrite Hkeep by exact Hj.
      rewrite Hcov0. apply lookup_app_l. lia.
Qed.

(** X10.  Whenever [arma_acov] returns for a largest lag of at least -1,
    the sequence has [maxlags + 1] entries. *)
Theorem arma_acov_length (model : Model) (maxlags : Z) (innov_var : R)
    (cov : list R) :
  (-1 ≤ maxlags)%Z → arma_acov model maxlags innov_var = Ok cov →
  length cov = Z.to_nat (maxlags + 1).
Proof.
  intros Hm H. rewrite arma_acov_stages in H.
  apply bind_Ok in H as (cov_n & Hsolve & H).
  apply solve_length in Hsolve. rewrite length_system_matrix in Hsolve.
  apply (complete_cov_entries model maxlags cov_n cov Hsolve); [lia|exact H].
Qed.

Lemma arma_acov_length_witness :
  length [1 + (1 / 2) ^ 2; 1 / 2; 0; 0; 0] = Z.to_nat (4 + 1).
Proof.
  apply (arma_acov_length {| ar := []; ma := [1 / 2] |} 4 1).
  - lia.
  - apply arma_acov_ma1.
Defined.

Lemma ar_recurrence_ext (ar_coef c1 c2 : list R) (i : nat) :
  (0 < i)%nat → (∀ j : nat, (j < i)%nat → c1 !! j = c2 !! j) →
  ar_recurrence ar_coef c1 i = ar_recurrence ar_coef c2 i.
Proof.
  intros Hi H. unfold ar_recurrence. apply sum_ext.
  intros k Hk. apply elem_of_seq in Hk. f_equal.
  rewrite !nth_lookup, H by lia. reflexivity.
Qed.

(** X11.  The autocovariance at a lag does not depend on the largest lag
    asked for: the sequence returned for a smaller largest lag is the
    beginning of the one returned for a larger one. *)
Theorem arma_acov_prefix (model : Model) (m1 m2 : Z) (innov_var : R)
    (c1 c2 : list R) :
  (-1 ≤ m1 ≤ m2)%Z →
  arma_acov model m1 innov_var = Ok c1 →
  arma_acov model m2 innov_var = Ok c2 →
  c1 = take (Z.to_nat (m1 + 1)) c2.
Proof.
  intros Hm H1 H2. rewrite arma_acov_stages in H1, H2.
  apply bind_Ok in H1 as (cov_n & Hsolve & H1).
  rewrite Hsolve in H2. cbn [mbind result_bind] in H2.
  apply solve_length in Hsolve. rewrite length_system_matrix in Hsolve.
  destruct (complete_cov_entries model m1 cov_n c1 Hsolve) as (Hl1 & Hk1 & Hr1);
    [lia|exact H1|].
  destruct (complete_cov_entries model m2 cov_n c2 Hsolve) as (Hl2 & Hk2 & Hr2);
    [lia|exact H2|].
  assert (Hagree : ∀ i : nat, (Z.of_nat i ≤ m1)%Z → c1 !! i = c2 !! i).
  { intros i. induction i as [i IH] using lt_wf_ind. intros Hi.
    destruct (decide (i ≤ solved_lags model)%nat) as [Hle|Hgt].
    - rewrite Hk1, Hk2 by lia. reflexivity.
    - rewrite Hr1, Hr2 by lia. f_equal.
      apply ar_recurrence_ext; [lia|].
      intros j Hj. apply IH; lia. }
  apply list_eq. intros i.
  destruct (decide (Z.of_nat i ≤ m1)%Z) as [Hi|Hi].
  - rewrite lookup_take_lt by lia. apply Hagree, Hi.
  - rewrite lookup_take_ge by lia.
    apply lookup_ge_None. lia.
Qed.

Lemma arma_acov_prefix_witness :
  ∃ c1 c2,
    arma_acov {| ar := [1 / 2]; ma := [] |} 1 1 = Ok c1
    ∧ arma_acov {| ar := [1 / 2]; ma := [] |} 4 1 = Ok c2
    ∧ c1 = take (Z.to_nat (1 + 1)) c2.
Proof.
  destruct (arma_acov_ar1 (1 / 2) 1 1) as (c1 & H1 & _); [lra|lia|].
  destruct (arma_acov_ar1 (1 / 2) 1 4) as (c2 & H2 & _); [lra|lia|].
  exists c1, c2. split; [exact H1|]. split; [exact H2|].
  apply (arma_acov_prefix {| ar := [1 / 2]; ma := [] |} 1 4 1 c1 c2);
    [lia|exact H1|exact H2].
Defined.
(** ** The autocovariance is proportional to the innovation variance *)

Lemma pivot_row_scale (c : R) (rows : list Linalg.eqn) :
  Linalg.pivot_row (map (scale_eqn c) rows) = Linalg.pivot_row rows.
Proof.
  destruct rows as [|r rest]; [reflexivity|].
  cbn [map Linalg.pivot_row]. rewrite map_map. reflexivity.
Qed.

Lemma swap_rows_map (f : Linalg.eqn → Linalg.eqn) (i j : nat)
    (rows : list Linalg.eqn) :
  Linalg.swap_rows i j (map f rows) = map f (Linalg.swap_rows i j rows).
Proof.
  unfold Linalg.swap_rows. rewrite !list_lookup_fmap.
  destruct (rows !! i) as [ri|]; [|reflexivity].
  destruct (rows !! j) as [rj|]; [|reflexivity].
  cbn. rewrite !list_fmap_insert. reflexivity.
Qed.

Lemma dot_scale (c : R) (a xs : list R) :
  Sig.dot a (map (Rmult c) xs) = c * Sig.dot a xs.
Proof.
  unfold Sig.dot, Np.sum. revert xs.
  induction a as [|u a IH]; intros [|v xs]; cbn; try lra.
  rewrite IH. lra.
Qed.

Lemma eliminate_scale (c : R) (k : nat) (rows : list Linalg.eqn) :
  Linalg.eliminate k (map (scale_eqn c) rows)
  = map (Rmult c) <$> Linalg.eliminate k rows.
Proof.
  revert rows. induction k as [|k IH]; intros rows; [reflexivity|].
  cbn [Linalg.eliminate]. rewrite pivot_row_scale, swap_rows_map.
  destruct (Linalg.swap_rows 0 (Linalg.pivot_row rows) rows)
    as [|[prow pb] rest]; [reflexivity|].
  cbn [map scale_eqn fst snd].
  destruct (Req_dec_T (hd 0 prow) 0) as [Hz|Hz]; [reflexivity|].
  assert (Hred : map (Linalg.reduce (hd 0 prow) (tl prow) (c * pb))
                     (map (scale_eqn c) rest)
                 = map (scale_eqn c)
                       (map (Linalg.reduce (hd 0 prow) (tl prow) pb) rest)).
  { rewrite !map_map. apply map_ext. intros [row b].
    unfold Linalg.reduce, scale_eqn. cbn [fst snd]. f_equal. field. exact Hz. }
  rewrite Hred, IH.
  destruct (Linalg.eliminate k _) as [xs|e]; [|reflexivity].
  cbn. f_equal. f_equal. rewrite dot_scale. field. exact Hz.
Qed.

Lemma solve_scale (c : R) (A : list (list R)) (b : list R) :
  Linalg.solve A (map (Rmult c) b) = map (Rmult c) <$> Linalg.solve A b.
Proof.
  unfold Linalg.solve. rewrite length_map.
  destruct (decide _) as [_|_]; [|reflexivity].
  rewrite <- eliminate_scale. f_equal.
  clear. revert b. induction A as [|row A IH]; intros [|v b]; cbn; try reflexivity.
  rewrite IH. reflexivity.
Qed.

Lemma system_rhs_scale (model : Model) (innov_var : R) :
  system_rhs model innov_var = map (Rmult innov_var) (system_rhs model 1).
Proof.
  unfold system_rhs. rewrite map_map. apply map_ext. intros v. ring.
Qed.

(** A loop whose body commutes with a map commutes with it. *)
Lemma for_each_commute {A B : Type} (f : A → B → Result A) (g : A → A)
    (l : list B) (a : A) :
  (∀ s b, f (g s) b = g <$> f s b) →
  for_each f (g a) l = g <$> for_each f a l.
Proof.
  intros Hf. revert a. induction l as [|b l IH]; intros a; cbn; [reflexivity|].
  rewrite Hf. destruct (f a b) as [a'|e]; cbn; [apply IH|reflexivity].
Qed.

Lemma sum_map_scale (c : R) (l : list R) :
  Np.sum (map (Rmult c) l) = c * Np.sum l.
Proof.
  unfold Np.sum. induction l as [|v l IH]; cbn; [lra|]. rewrite IH. lra.
Qed.

Lemma slice_map {A B : Type} (f : A → B) (a : list A) (lo hi : option Z) :
  slice (map f a) lo hi = map f (slice a lo hi).
Proof.
  unfold slice. rewrite length_map.
  rewrite skipn_map, firstn_map. reflexivity.
Qed.

Lemma complete_cov_scale (model : Model) (maxlags : Z) (c : R) (cov_n : list R) :
  complete_cov model maxlags (map (Rmult c) cov_n)
  = map (Rmult c) <$> complete_cov model maxlags cov_n.
Proof.
  unfold complete_cov. destruct (decide _) as [_|_].
  - cbn [fmap result_fmap]. rewrite slice_map. reflexivity.
  - assert (Hz : ∀ k, map (Rmult c) (Np.zeros k) = Np.zeros k).
    { intros k. unfold Np.zeros. induction k as [|k IH]; cbn; [reflexivity|].
      rewrite IH. f_equal. lra. }
    assert (Hpre : Np.set_prefix (Np.zeros (Z.to_nat (maxlags + 1)))
                     (solved_lags model + 1) (map (Rmult c) cov_n)
                   = map (Rmult c) <$>
                     Np.set_prefix (Np.zeros (Z.to_nat (maxlags + 1)))
                       (solved_lags model + 1) cov_n).
    { unfold Np.set_prefix. rewrite length_map.
      destruct (decide _) as [_|_].
      - cbn. rewrite map_app, <- skipn_map, Hz. reflexivity.
      - destruct cov_n as [|v [|w l]]; cbn; try reflexivity.
        rewrite map_app, <- skipn_map, Hz. f_equal. f_equal.
        unfold fmap, list_fmap. clear.
        induction (Nat.min _ _) as [|k IH]; cbn; [reflexivity|].
        rewrite IH. reflexivity. }
    rewrite Hpre.
    destruct (Np.set_prefix _ _ cov_n) as [cov0|e]; [|reflexivity].
    cbn [fmap result_fmap mbind result_bind].
    apply for_each_commute. intros s i.
    rewrite slice_map. unfold Np.inner. rewrite length_map.
    destruct (decide _) as [_|_]; [|reflexivity].
    cbn [mbind result_bind].
    assert (Hin : Np.sum (zip_with Rmult
                    (map (Rmult c)
                       (slice s (Some (i - Z.of_nat (length (ar model)))%Z) (Some i)))
                    (rev (ar model)))
                  = c * Np.sum (zip_with Rmult
                      (slice s (Some (i - Z.of_nat (length (ar model)))%Z) (Some i))
                      (rev (ar model)))).
    { generalize (slice s (Some (i - Z.of_nat (length (ar model)))%Z) (Some i)).
      generalize (rev (ar model)). clear.
      unfold Np.sum. intros l1 l2. revert l1.
      induction l2 as [|u l2 IH]; intros [|v l1]; cbn; try lra.
      rewrite IH. lra. }
    rewrite Hin. unfold Np.setitem. rewrite length_map.
    destruct (index (length s) i) as [k|e]; [|reflexivity].
    cbn. rewrite list_fmap_insert. reflexivity.
Qed.

Lemma arma_acov_scale (model : Model) (maxlags : Z) (innov_var : R) :
  arma_acov model maxlags innov_var
  = map (Rmult innov_var) <$> arma_acov model maxlags 1.
Proof.
  rewrite !arma_acov_stages.
  rewrite (system_rhs_scale model innov_var), solve_scale.
  destruct (Linalg.solve _ _) as [cov_n|e]; [|reflexivity].
  cbn [fmap result_fmap mbind result_bind].
  apply complete_cov_scale.
Qed.

(** X12.  The autocovariance is proportional to the innovation variance:
    [arma_acov(model, maxlags, v)] is [v] times
    [arma_acov(model, maxlags, 1)], errors included. *)
Theorem arma_acov_innov_var (model : Model) (maxlags : Z) (innov_var : R) :
  arma_acov model maxlags innov_var
  = map (Rmult innov_var) <$> arma_acov model maxlags 1.
Proof. apply arma_acov_scale. Qed.

(** X13.  The residual variance of the fit does what it is computed for:
    the fitted model, with the residual variance as innovation variance,
    has the empirical lag-0 autocovariance of [x] as its lag-0
    autocovariance, provided the model variance at unit innovation is not
    zero. *)
Theorem ar_acf_fit_matches_variance
    (lstsq : list (list R) → list R → Result (list R))
    (fmin : (list R → Result R) → list R → Result (list R))
    (x : list R) (p : Z) (maxlags : option Z) (coef : list R)
    (res_var c_m : R) :
  ar_acf_fit lstsq fmin x p maxlags = Ok (coef, res_var) →
  arma_acov {| ar := coef; ma := [] |} 0 1 = Ok [c_m] → c_m ≠ 0 →
  arma_acov {| ar := coef; ma := [] |} 0 res_var = Ok [autocov x 0].
Proof.
  intros Hfit Hm Hc.
  destruct (ar_acf_fit_rescale lstsq fmin x p maxlags coef res_var Hfit)
    as (c & Hm' & ->).
  rewrite Hm in Hm'. injection Hm' as <-.
  rewrite arma_acov_scale, Hm. cbn. eq_entries. field. exact Hc.
Qed.

Lemma ar_acf_fit_matches_variance_witness :
  arma_acov {| ar := [1 / 2]; ma := [] |} 0 (21 / 4)
  = Ok [autocov [1; 2; 4] 0].
Proof.
  apply (ar_acf_fit_matches_variance
           (λ X y, Ok [Sig.dot (map (hd 0) X) y
                       / Sig.dot (map (hd 0) X) (map (hd 0) X)])
           (λ f x0, Ok x0)
           [1; 2; 4] 1 (Some 2%Z) [1 / 2] (21 / 4) (1 / (1 - (1 / 2) ^ 2))).
  - exact ar_acf_fit_example.
  - apply arma_acov_ar1_lag0. lra.
  - lra.
Defined.
(** ** A fit whose variance cannot be matched *)




(** ** The AR(1) model outside the stationary range *)

Lemma solve_ar1_explosive (phi innov_var : R) :
  phi < -1 ∨ 1 < phi →
  Linalg.solve [[1; - phi]; [- phi; 1]] [innov_var; 0]
  = Ok [innov_var / (1 - phi ^ 2); phi * innov_var / (1 - phi ^ 2)].
Proof.
  intros Hphi. unfold Linalg.solve. cbn [length].
  destruct (decide _) as [_|Hn].
  2:{ exfalso. apply Hn. split; [reflexivity|]. repeat constructor. }
  cbn [zip zip_with Linalg.eliminate Linalg.pivot_row map Linalg.argmax_abs
       fst snd hd].
  assert (Habs : Rabs 1 < Rabs (- phi)).
  { rewrite Rabs_R1, Rabs_Ropp. unfold Rabs. destruct (Rcase_abs phi); lra. }
  destruct (Rlt_dec (Rabs 1) (Rabs (- phi))) as [_|?]; [|contradiction].
  cbn [Linalg.swap_rows lookup list_lookup list_insert insert hd tl].
  destruct (Req_dec_T (- phi) 0) as [?|_]; [lra|].
  cbn [map Linalg.reduce Linalg.pivot_row Linalg.argmax_abs fst snd hd tl
       zip_with Linalg.swap_rows lookup list_lookup list_insert insert].
  assert (Hpiv : - phi - 1 / - phi * 1 ≠ 0).
  { intros H. assert (Hp : phi ≠ 0) by lra.
    assert (H' : (- phi - 1 / - phi * 1) * phi = 1 - phi * phi) by (field; exact Hp).
    rewrite H in H'. nra. }
  destruct (Req_dec_T _ 0) as [?|_]; [contradiction|].
  cbn [mbind result_bind Sig.dot zip_with Np.sum foldr tl].
  eq_entries; field; repeat split; (lra || (intros Hz; nra)).
Qed.

Lemma solve_ar1_unit_root (phi innov_var : R) :
  phi = 1 ∨ phi = -1 →
  Linalg.solve [[1; - phi]; [- phi; 1]] [innov_var; 0] = Raise LinAlgError.
Proof.
  intros [-> | ->]; unfold Linalg.solve; cbn [length];
    (destruct (decide _) as [_|Hn];
     [|exfalso; apply Hn; split; [reflexivity|repeat constructor]]);
    repeat (progress eliminate_step); reflexivity.
Qed.

(** X14.  An AR(1) model with a unit root, [phi = 1] or [phi = -1], makes
    [arma_acov] raise [LinAlgError], whatever the largest lag and the
    innovation variance. *)
Theorem arma_acov_ar1_unit_root (phi innov_var : R) (maxlags : Z) :
  phi = 1 ∨ phi = -1 →
  arma_acov {| ar := [phi]; ma := [] |} maxlags innov_var = Raise LinAlgError.
Proof.
  intros Hphi. rewrite arma_acov_stages.
  destruct (ar1_system phi innov_var) as [-> ->].
  rewrite solve_ar1_unit_root by exact Hphi. reflexivity.
Qed.

Lemma arma_acov_ar1_unit_root_witness :
  arma_acov {| ar := [-1]; ma := [] |} 10 1 = Raise LinAlgError.
Proof. apply (arma_acov_ar1_unit_root (-1) 1 10). right. reflexivity. Defined.

(** The completion for an AR(1) model, from the solution of the system. *)
Lemma complete_cov_ar1 (phi innov_var : R) (maxlags : Z) (cov : list R) :
  1 - phi ^ 2 ≠ 0 → (0 ≤ maxlags)%Z →
  complete_cov {| ar := [phi]; ma := [] |} maxlags
    [innov_var / (1 - phi ^ 2); phi * innov_var / (1 - phi ^ 2)] = Ok cov →
  ∀ h : nat, (Z.of_nat h ≤ maxlags)%Z →
    cov !! h = Some (innov_var * phi ^ h / (1 - phi ^ 2)).
Proof.
  intros Hden Hm Hcov.
  destruct (complete_cov_entries {| ar := [phi]; ma := [] |} maxlags
              [innov_var / (1 - phi ^ 2); phi * innov_var / (1 - phi ^ 2)] cov
              eq_refl ltac:(lia) Hcov)
    as (_ & Hkeep & Hrec).
  change (solved_lags {| ar := [phi]; ma := [] |}) with 1%nat in *.
  cbn [ar] in Hrec.
  intros h. induction h as [|h IH]; intros Hh.
  - rewrite Hkeep by lia. cbn. f_equal. field.
    intros Hz; apply Hden; rewrite <- Hz; ring.
  - destruct h as [|h].
    + rewrite Hkeep by lia. cbn. f_equal. field.
      intros Hz; apply Hden; rewrite <- Hz; ring.
    + rewrite Hrec by lia. f_equal.
      unfold ar_recurrence. cbn [length seq map Np.sum foldr Nat.sub nth].
      rewrite nth_lookup, IH by lia. cbn [default from_option pow].
      unfold Datatypes.id. field.
      intros Hz; apply Hden; rewrite <- Hz; ring.
Qed.

(** X15.  For an explosive AR(1) model, [|phi| > 1], [arma_acov] raises
    nothing: it returns the values [v * phi^h / (1 - phi^2)], so that for
    a positive innovation variance the value at lag 0 is negative. *)
Theorem arma_acov_ar1_explosive (phi innov_var : R) (maxlags : Z) :
  1 < Rabs phi → (0 ≤ maxlags)%Z → 0 < innov_var →
  ∃ cov c0,
    arma_acov {| ar := [phi]; ma := [] |} maxlags innov_var = Ok cov
    ∧ (∀ h : nat, (Z.of_nat h ≤ maxlags)%Z →
         cov !! h = Some (innov_var * phi ^ h / (1 - phi ^ 2)))
    ∧ cov !! 0%nat = Some c0 ∧ c0 < 0.
Proof.
  intros Hphi Hm Hv.
  assert (Hphi' : phi < -1 ∨ 1 < phi).
  { unfold Rabs in Hphi. destruct (Rcase_abs phi); lra. }
  assert (Hden : 1 - phi ^ 2 < 0) by (cbn; nra).
  destruct (arma_acov_returns_or_singular {| ar := [phi]; ma := [] |}
              maxlags innov_var) as [(cov & Hcov)|Hs].
  - assert (Hval : ∀ h : nat, (Z.of_nat h ≤ maxlags)%Z →
              cov !! h = Some (innov_var * phi ^ h / (1 - phi ^ 2))).
    { rewrite arma_acov_stages in Hcov.
      destruct (ar1_system phi innov_var) as [HA Hb]. rewrite HA, Hb in Hcov.
      rewrite solve_ar1_explosive in Hcov by exact Hphi'.
      cbn [mbind result_bind] in Hcov.
      apply (complete_cov_ar1 phi innov_var maxlags cov); [lra|exact Hm|exact Hcov]. }
    exists cov, (innov_var * phi ^ 0 / (1 - phi ^ 2)).
    split; [exact Hcov|]. split; [exact Hval|]. split; [apply Hval; lia|].
    assert (Hinv : / (1 - phi ^ 2) < 0) by (apply Rinv_lt_0_compat; exact Hden).
    set (d := 1 - phi ^ 2) in *. unfold Rdiv. rewrite pow_O. nra.
  - exfalso. rewrite arma_acov_stages in Hs.
    destruct (ar1_system phi innov_var) as [HA Hb]. rewrite HA, Hb in Hs.
    rewrite solve_ar1_explosive in Hs by exact Hphi'.
    cbn [mbind result_bind] in Hs.
    destruct (complete_cov_returns {| ar := [phi]; ma := [] |} maxlags
                [innov_var / (1 - phi ^ 2); phi * innov_var / (1 - phi ^ 2)]
                eq_refl) as (c & Hc).
    rewrite Hc in Hs. discriminate.
Qed.

Lemma arma_acov_ar1_explosive_witness :
  ∃ cov c0,
    arma_acov {| ar := [2]; ma := [] |} 3 1 = Ok cov
    ∧ (∀ h : nat, (Z.of_nat h ≤ 3)%Z →
         cov !! h = Some (1 * 2 ^ h / (1 - 2 ^ 2)))
    ∧ cov !! 0%nat = Some c0 ∧ c0 < 0.
Proof.
  apply (arma_acov_ar1_explosive 2 1 3).
  - rewrite Rabs_pos_eq; lra.
  - lia.
  - lra.
Defined.

(** ** The autocorrelation of the AR(1) model *)

(** X16.  For [|phi| < 1], the analytic autocorrelation of the AR(1) model
    at lag [h] is [phi^h]. *)
Theorem arma_acf_ar1 (phi : R) (maxlags : Z) (h : nat) :
  Rabs phi < 1 → (Z.of_nat h ≤ maxlags)%Z →
  ∃ r, arma_acf {| ar := [phi]; ma := [] |} maxlags = Ok r
       ∧ r !! h = Some (phi ^ h).
Proof.
  intros Hphi Hh. apply Rabs_def2 in Hphi.
  destruct (arma_acov_ar1 phi 1 maxlags) as (cov & Hcov & Hlen & Hval);
    [lra|lia|].
  unfold arma_acf. rewrite Hcov. cbn [mbind result_bind].
  assert (Hg : Np.getitem cov 0 = Ok (1 * phi ^ 0 / (1 - phi ^ 2)))
    by exact (getitem_nat cov 0 _ (Hval 0%nat ltac:(lia))).
  rewrite Hg. cbn [mbind result_bind]. eexists; split; [reflexivity|].
  rewrite list_lookup_fmap, Hval by exact Hh. cbn. f_equal.
  field. intros Hz. nra.
Qed.

Lemma arma_acf_ar1_witness :
  ∃ r, arma_acf {| ar := [1 / 2]; ma := [] |} 4 = Ok r
       ∧ r !! 3%nat = Some ((1 / 2) ^ 3).
Proof.
  apply (arma_acf_ar1 (1 / 2) 4 3).
  - rewrite Rabs_pos_eq; lra.
  - lia.
Defined.

(** ** The MA(1) model *)

(** X17.  The autocovariance of an MA(1) model with coefficient [theta] is
    [(1 + theta^2) v] at lag 0, [theta v] at lag 1 and 0 at every further
    lag, for every largest lag. *)
Theorem arma_acov_ma1_closed_form (theta innov_var : R) (maxlags : Z) :
  (0 ≤ maxlags)%Z →
  ∃ cov,
    arma_acov {| ar := []; ma := [theta] |} maxlags innov_var = Ok cov
    ∧ length cov = Z.to_nat (maxlags + 1)
    ∧ cov !! 0%nat = Some ((1 + theta ^ 2) * innov_var)
    ∧ ((1 ≤ maxlags)%Z → cov !! 1%nat = Some (theta * innov_var))
    ∧ ∀ h : nat, (2 ≤ h)%nat → (Z.of_nat h ≤ maxlags)%Z → cov !! h = Some 0.
Proof.
  intros Hm. rewrite arma_acov_stages.
  destruct (ma1_system theta innov_var) as [-> ->].
  rewrite solve_identity3. cbn [mbind result_bind].
  destruct (complete_cov_returns {| ar := []; ma := [theta] |} maxlags
              [(1 + theta ^ 2) * innov_var; theta * innov_var; 0] eq_refl)
    as (cov & Hcov).
  exists cov. split; [exact Hcov|].
  destruct (complete_cov_entries {| ar := []; ma := [theta] |} maxlags
              [(1 + theta ^ 2) * innov_var; theta * innov_var; 0] cov
              eq_refl ltac:(lia) Hcov)
    as (Hlen & Hkeep & Hrec).
  change (solved_lags {| ar := []; ma := [theta] |}) with 2%nat in *.
  cbn [ar] in Hrec.
  split; [exact Hlen|]. split; [apply Hkeep; lia|].
  split; [intros H1; apply Hkeep; lia|].
  intros h Hh Hhm. destruct (decide (h = 2%nat)) as [->|Hne].
  - apply Hkeep; lia.
  - rewrite Hrec by lia. reflexivity.
Qed.

Lemma arma_acov_ma1_closed_form_witness :
  ∃ cov,
    arma_acov {| ar := []; ma := [3] |} 5 2 = Ok cov
    ∧ length cov = Z.to_nat (5 + 1)
    ∧ cov !! 0%nat = Some ((1 + 3 ^ 2) * 2)
    ∧ ((1 ≤ 5)%Z → cov !! 1%nat = Some (3 * 2))
    ∧ ∀ h : nat, (2 ≤ h)%nat → (Z.of_nat h ≤ 5)%Z → cov !! h = Some 0.
Proof. apply (arma_acov_ma1_closed_form 3 2 5). lia. Defined.
(** ** The state variables and the state-space conversion *)

Lemma np_diff_lookup (a : list R) (j : nat) :
  (j + 1 < length a)%nat →
  np_diff a !! j = Some (nth (j + 1) a 0 - nth j a 0).
Proof.
  intros Hj. unfold np_diff. rewrite lookup_zip_with, lookup_drop.
  rewrite !nth_lookup.
  destruct (a !! (1 + j)%nat) as [u|] eqn:Hu.
  2:{ apply lookup_ge_None in Hu. lia. }
  destruct (a !! j) as [v|] eqn:Hv.
  2:{ apply lookup_ge_None in Hv. lia. }
  replace (j + 1)%nat with (1 + j)%nat by lia. rewrite Hu. reflexivity.
Qed.

Lemma length_np_diff (a : list R) : length (np_diff a) = (length a - 1)%nat.
Proof. unfold np_diff. rewrite length_zip_with, length_drop. lia. Qed.

Lemma length_accel (speed : list R) :
  speed ≠ [] → length (accel speed) = length speed.
Proof.
  intros Hs. unfold accel. cbn [app length].
  rewrite length_map, length_np_diff.
  destruct speed; [contradiction|cbn; lia].
Qed.

Lemma accel_lookup (speed : list R) (k : nat) :
  (1 ≤ k)%nat → (k < length speed)%nat →
  accel speed !! k = Some ((nth k speed 0 - nth (k - 1) speed 0) / dt).
Proof.
  intros H1 Hk. unfold accel.
  rewrite lookup_app_r by (cbn; lia). cbn [length].
  rewrite list_lookup_fmap, np_diff_lookup by lia.
  cbn. replace (k - 1 + 1)%nat with k by lia. reflexivity.
Qed.

(** Column [k] of the state array. *)
Lemma state_getcol (speed : list R) (k : nat) :
  (k < length speed)%nat →
  State.getcol (speed, accel speed) (Z.of_nat k)
  = Ok (nth k speed 0,
        if decide (k = 0%nat) then 0
        else (nth k speed 0 - nth (k - 1) speed 0) / dt).
Proof.
  intros Hk. unfold State.getcol. cbn [fst snd].
  rewrite (getitem_nat speed k (nth k speed 0)).
  2:{ rewrite nth_lookup. destruct (speed !! k) eqn:H; [reflexivity|].
      apply lookup_ge_None in H. lia. }
  cbn [mbind result_bind].
  destruct (decide (k = 0%nat)) as [->|Hne].
  - rewrite (getitem_nat (accel speed) 0 0) by reflexivity. reflexivity.
  - rewrite (getitem_nat (accel speed) k _ (accel_lookup speed k ltac:(lia) Hk)).
    reflexivity.
Qed.

(** X18.  The acceleration has one value per speed sample: 0 first, then
    the backward difference of the speed over [dt]; the state array
    [X = vstack(speed, accel)] is returned for every non-empty speed. *)
Theorem state_X_columns (speed : list R) (k : nat) :
  (k < length speed)%nat →
  state_X speed = Ok (speed, accel speed)
  ∧ length (accel speed) = length speed
  ∧ State.getcol (speed, accel speed) (Z.of_nat k)
    = Ok (nth k speed 0,
          if decide (k = 0%nat) then 0
          else (nth k speed 0 - nth (k - 1) speed 0) / dt).
Proof.
  intros Hk.
  assert (Hs : speed ≠ []) by (intros ->; cbn in Hk; lia).
  pose proof (length_accel speed Hs) as Hl.
  split; [|split; [exact Hl|]].
  - unfold state_X, vstack. rewrite Hl.
    destruct (decide _) as [_|?]; [reflexivity|contradiction].
  - apply state_getcol, Hk.
Qed.

Lemma state_X_columns_witness :
  state_X [1; 3; 2] = Ok ([1; 3; 2], accel [1; 3; 2])
  ∧ length (accel [1; 3; 2]) = length [1; 3; 2]
  ∧ State.getcol ([1; 3; 2], accel [1; 3; 2]) (Z.of_nat 2)
    = Ok (nth 2 [1; 3; 2] 0,
          if decide (2%nat = 0%nat) then 0
          else (nth 2 [1; 3; 2] 0 - nth (2 - 1) [1; 3; 2] 0) / dt).
Proof. apply (state_X_columns [1; 3; 2] 2). cbn. lia. Defined.

(** X19.  The conversion is exact: wherever the speed follows the AR(2)
    recurrence [speed[k+1] = p1 * speed[k] + p2 * speed[k-1]], the matrix
    [T_AR2] maps the state (speed, acceleration) at [k] to the state at
    [k + 1]. *)
Theorem T_AR2_exact (speed : list R) (p1 p2 : R) (k : nat) :
  (1 ≤ k)%nat → (k + 1 < length speed)%nat →
  nth (k + 1) speed 0 = p1 * nth k speed 0 + p2 * nth (k - 1) speed 0 →
  ∃ T v, T_AR2 [p1; p2] = Ok T
         ∧ State.getcol (speed, accel speed) (Z.of_nat k) = Ok v
         ∧ State.getcol (speed, accel speed) (Z.of_nat (k + 1))
           = Ok (State.dot T v).
Proof.
  intros H1 Hk Har.
  pose proof (state_getcol speed k ltac:(lia)) as Hck.
  pose proof (state_getcol speed (k + 1) ltac:(lia)) as Hck1.
  revert Hck Hck1.
  destruct (decide (k = 0%nat)) as [?|_]; [lia|].
  destruct (decide ((k + 1)%nat = 0%nat)) as [?|_]; [lia|].
  intros Hck Hck1.
  eexists; eexists. split; [reflexivity|]. split; [exact Hck|].
  rewrite Hck1. f_equal.
  replace (k + 1 - 1)%nat with k by lia.
  unfold State.dot, dt. cbn [fst snd]. rewrite Har.
  eq_entries; field.
Qed.

Lemma T_AR2_exact_witness :
  ∃ T v, T_AR2 [1; 1] = Ok T
         ∧ State.getcol ([1; 1; 2; 3], accel [1; 1; 2; 3]) (Z.of_nat 1) = Ok v
         ∧ State.getcol ([1; 1; 2; 3], accel [1; 1; 2; 3]) (Z.of_nat (1 + 1))
           = Ok (State.dot T v).
Proof.
  apply (T_AR2_exact [1; 1; 2; 3] 1 1 1).
  - lia.
  - cbn. lia.
  - cbn. lra.
Defined.

(** X20.  The transition matrix has the dynamics of the AR(2) model: its
    trace is [p1] and its determinant is [-p2], so that its characteristic
    polynomial is [z^2 - p1 z - p2]. *)
Theorem T_AR2_characteristic (p1 p2 : R) :
  ∃ T, T_AR2 [p1; p2] = Ok T
       ∧ T.1.1 + T.2.2 = p1
       ∧ T.1.1 * T.2.2 - T.1.2 * T.2.1 = - p2.
Proof.
  eexists. split; [reflexivity|]. cbn [fst snd]. unfold dt.
  split; field.
Qed.

(** X21.  The prescribed innovation covariance is symmetric, singular, and
    positive semi-definite for a non-negative innovation variance: its
    quadratic form is [innov_var * (v1 + v2/dt)^2]. *)
Theorem innov_cov_semidefinite (innov_var : R) (v : vec2) :
  0 <= innov_var →
  (innov_cov innov_var).1.2 = (innov_cov innov_var).2.1
  ∧ (innov_cov innov_var).1.1 * (innov_cov innov_var).2.2
    - (innov_cov innov_var).1.2 * (innov_cov innov_var).2.1 = 0
  ∧ v.1 * (State.dot (innov_cov innov_var) v).1
    + v.2 * (State.dot (innov_cov innov_var) v).2
    = innov_var * (v.1 + v.2 / dt) ^ 2
  ∧ 0 <= v.1 * (State.dot (innov_cov innov_var) v).1
         + v.2 * (State.dot (innov_cov innov_var) v).2.
Proof.
  intros Hv.
  assert (Hq : v.1 * (State.dot (innov_cov innov_var) v).1
               + v.2 * (State.dot (innov_cov innov_var) v).2
               = innov_var * (v.1 + v.2 / dt) ^ 2).
  { destruct v as [a b]. unfold State.dot, innov_cov, dt. cbn [fst snd]. field. }
  split; [reflexivity|]. split.
  - unfold innov_cov, dt. cbn [fst snd]. field.
  - split; [exact Hq|]. rewrite Hq.
    apply Rmult_le_pos; [exact Hv|]. apply pow2_ge_0.
Qed.

Lemma innov_cov_semidefinite_witness :
  (innov_cov 2).1.2 = (innov_cov 2).2.1
  ∧ (innov_cov 2).1.1 * (innov_cov 2).2.2
    - (innov_cov 2).1.2 * (innov_cov 2).2.1 = 0
  ∧ (1, -3).1 * (State.dot (innov_cov 2) (1, -3)).1
    + (1, -3).2 * (State.dot (innov_cov 2) (1, -3)).2
    = 2 * ((1, -3).1 + (1, -3).2 / dt) ^ 2
  ∧ 0 <= (1, -3).1 * (State.dot (innov_cov 2) (1, -3)).1
         + (1, -3).2 * (State.dot (innov_cov 2) (1, -3)).2.
Proof. apply (innov_cov_semidefinite 2 (1, -3)). lra. Defined.
(** ** Prediction and simulation with noise *)

Lemma columns_getcol (f : nat → vec2) (k rest i : nat) :
  (i ≤ k)%nat → State.getcol (columns f k rest) (Z.of_nat i) = Ok (f i).
Proof.
  intros Hi. unfold State.getcol, columns. cbn [fst snd].
  assert (Hl : ∀ g : nat → R,
    Np.getitem (map g (seq 0 (S k)) ++ Np.zeros rest) (Z.of_nat i) = Ok (g i)).
  { intros g. apply getitem_nat.
    rewrite lookup_app_l by (rewrite length_map, length_seq; lia).
    rewrite list_lookup_fmap, lookup_seq_lt by lia. reflexivity. }
  rewrite !Hl. cbn. destruct (f i); reflexivity.
Qed.

Lemma columns_setcol (f : nat → vec2) (k rest : nat) :
  State.setcol (columns f k (S rest)) (Z.of_nat (S k)) (f (S k))
  = Ok (columns f (S k) rest).
Proof.
  unfold State.setcol, columns. cbn [fst snd].
  assert (Hfill : ∀ g : nat → R,
    <[S k:=g (S k)]> (map g (seq 0 (S k)) ++ Np.zeros (S rest))
    = map g (seq 0 (S (S k))) ++ Np.zeros rest).
  { intros g.
    rewrite insert_app_r_alt by (rewrite length_map, length_seq; lia).
    rewrite length_map, length_seq, Nat.sub_diag.
    rewrite (seq_S (S k)), map_app, <- app_assoc. reflexivity. }
  rewrite !setitem_nat.
  2,3: rewrite length_app, length_map, length_seq, length_zeros; lia.
  cbn [mbind result_bind fst snd].
  rewrite (Hfill (λ i, (f i).1)), (Hfill (λ i, (f i).2)). reflexivity.
Qed.

Lemma columns_start (f : nat → vec2) (m : nat) (v : vec2) :
  f 0%nat = v →
  State.setcol (Np.zeros (S m), Np.zeros (S m)) 0 v = Ok (columns f 0 m).
Proof.
  intros <-. unfold State.setcol, columns. cbn [fst snd].
  rewrite !(setitem_nat _ 0) by (rewrite length_zeros; lia).
  reflexivity.
Qed.

(** The trajectories for draws that are as many as the horizon. *)
Lemma trajectories_columns
    (multivariate_normal : vec2 → mat2 → Z → list vec2)
    (T Sigma : mat2) (x0 : vec2) (horizon : nat) :
  let draws := multivariate_normal (0, 0) Sigma (Z.of_nat horizon) in
  length draws = horizon →
  trajectories multivariate_normal T Sigma x0 (Z.of_nat horizon)
  = Ok (columns (predict_spec T x0) horizon 0,
        columns (simulate_spec T x0 draws) horizon 0).
Proof.
  intros draws Hlen. unfold trajectories. fold draws.
  unfold State.zeros.
  destruct (decide _) as [_|?]; [|lia].
  replace (Z.to_nat (Z.of_nat horizon + 1)) with (S horizon) by lia.
  cbn [mbind result_bind].
  rewrite (columns_start (predict_spec T x0) horizon x0 eq_refl).
  cbn [mbind result_bind].
  change (columns (predict_spec T x0) 0 horizon)
    with (columns (simulate_spec T x0 draws) 0 horizon) at 2.
  destruct (for_each_invariant
    (λ '(X_prev, X_traj) i,
       xp ← State.getcol X_prev (i - 1);
       X_prev ← State.setcol X_prev i (State.dot T xp);
       xt ← State.getcol X_traj (i - 1);
       e ← State.getcol (State.transpose draws) (i - 1);
       X_traj ← State.setcol X_traj i (State.add (State.dot T xt) e);
       Ok (X_prev, X_traj))
    (λ k s, s = (columns (predict_spec T x0) k (horizon - k),
                 columns (simulate_spec T x0 draws) k (horizon - k)))
    (range 1 (Z.of_nat horizon + 1))
    (columns (predict_spec T x0) 0 horizon,
     columns (simulate_spec T x0 draws) 0 horizon)) as (r & Hr & HI).
  - rewrite Nat.sub_0_r. reflexivity.
  - intros k b s Hk ->. apply lookup_seqZ in Hk as [-> Hk].
    replace (1 + Z.of_nat k - 1)%Z with (Z.of_nat k) by lia.
    replace (1 + Z.of_nat k)%Z with (Z.of_nat (S k)) by lia.
    replace (horizon - k)%nat with (S (horizon - S k)) by lia.
    rewrite !columns_getcol by lia. cbn [mbind result_bind].
    change (State.dot T (predict_spec T x0 k)) with (predict_spec T x0 (S k)).
    rewrite columns_setcol. cbn [mbind result_bind].
    assert (He : State.getcol (State.transpose draws) (Z.of_nat k)
                 = Ok (nth k draws (0, 0))).
    { destruct (draws !! k) as [[a b]|] eqn:Hd.
      2:{ apply lookup_ge_None in Hd. lia. }
      rewrite (nth_lookup_Some _ _ _ _ Hd).
      unfold State.getcol, State.transpose. cbn [fst snd].
      rewrite (getitem_nat (map fst draws) k a)
        by (rewrite list_lookup_fmap; exact (f_equal (fmap fst) Hd)).
      cbn [mbind result_bind].
      rewrite (getitem_nat (map snd draws) k b)
        by (rewrite list_lookup_fmap; exact (f_equal (fmap snd) Hd)).
      reflexivity. }
    rewrite He. cbn [mbind result_bind].
    change (State.add (State.dot T (simulate_spec T x0 draws k)) (nth k draws (0, 0)))
      with (simulate_spec T x0 draws (S k)).
    rewrite columns_setcol. cbn [mbind result_bind].
    eexists; split; reflexivity.
  - rewrite Hr, HI. unfold range. rewrite length_seqZ.
    replace (Z.to_nat (Z.of_nat horizon + 1 - 1)) with horizon by lia.
    rewrite Nat.sub_diag. reflexivity.
Qed.

(** X22.  When the sampler returns as many draws as the horizon, both
    trajectories are returned; the prediction does not depend on the draws
    (column [i] is [T] applied [i] times to the initial state), and the
    simulation starts from the initial state and adds draw [i - 1] to [T]
    applied to its column [i - 1]. *)
Theorem trajectories_recursion
    (multivariate_normal : vec2 → mat2 → Z → list vec2)
    (T Sigma : mat2) (x0 : vec2) (horizon : nat) :
  length (multivariate_normal (0, 0) Sigma (Z.of_nat horizon)) = horizon →
  ∃ Xp Xt,
    trajectories multivariate_normal T Sigma x0 (Z.of_nat horizon) = Ok (Xp, Xt)
    ∧ (∀ i : nat, (i ≤ horizon)%nat →
         State.getcol Xp (Z.of_nat i) = Ok (predict_spec T x0 i))
    ∧ State.getcol Xt 0 = Ok x0
    ∧ (∀ i : nat, (i < horizon)%nat →
         ∃ v e, State.getcol Xt (Z.of_nat i) = Ok v
                ∧ multivariate_normal (0, 0) Sigma (Z.of_nat horizon) !! i = Some e
                ∧ State.getcol Xt (Z.of_nat (S i))
                  = Ok (State.add (State.dot T v) e)).
Proof.
  intros Hlen.
  set (draws := multivariate_normal (0, 0) Sigma (Z.of_nat horizon)) in *.
  eexists; eexists. split.
  - apply (trajectories_columns multivariate_normal T Sigma x0 horizon Hlen).
  - fold draws. split; [|split].
    + intros i Hi. apply columns_getcol, Hi.
    + apply (columns_getcol (simulate_spec T x0 draws) horizon 0 0). lia.
    + intros i Hi.
      destruct (draws !! i) as [e|] eqn:Hd.
      2:{ apply lookup_ge_None in Hd. lia. }
      exists (simulate_spec T x0 draws i), e.
      split; [apply columns_getcol; lia|]. split; [reflexivity|].
      rewrite columns_getcol by lia. cbn [simulate_spec].
      rewrite (nth_lookup_Some _ _ _ _ Hd). reflexivity.
Qed.

Lemma trajectories_recursion_witness :
  ∃ Xp Xt,
    trajectories (λ _ _ n, replicate (Z.to_nat n) (1, -1))
      ((0.85, 0.005), (-1.5, 0.05)) (innov_cov 1) (1, 0) (Z.of_nat 3) = Ok (Xp, Xt)
    ∧ (∀ i : nat, (i ≤ 3)%nat →
         State.getcol Xp (Z.of_nat i)
         = Ok (predict_spec ((0.85, 0.005), (-1.5, 0.05)) (1, 0) i))
    ∧ State.getcol Xt 0 = Ok (1, 0)
    ∧ (∀ i : nat, (i < 3)%nat →
         ∃ v e, State.getcol Xt (Z.of_nat i) = Ok v
                ∧ replicate (Z.to_nat (Z.of_nat 3)) (1, -1) !! i = Some e
                ∧ State.getcol Xt (Z.of_nat (S i))
                  = Ok (State.add (State.dot ((0.85, 0.005), (-1.5, 0.05)) v) e)).
Proof.
  apply (trajectories_recursion (λ _ _ n, replicate (Z.to_nat n) (1, -1))
           ((0.85, 0.005), (-1.5, 0.05)) (innov_cov 1) (1, 0) 3).
  reflexivity.
Defined.
(** ** The multi-step prediction error *)

Lemma slice_to_back {A : Type} (a : list A) (i : Z) :
  (0 < i ≤ Z.of_nat (length a))%Z →
  slice a None (Some (- i)%Z) = take (length a - Z.to_nat i) a.
Proof.
  intros Hi. unfold slice, bound. cbn.
  destruct (decide (- i < 0)%Z) as [_|?]; [|lia].
  rewrite Nat.sub_0_r, drop_0. f_equal. lia.
Qed.

Lemma step_error_row (a b : list R) (i : nat) :
  length b = length a → (0 < i ≤ length a)%nat →
  Np.broadcast Rminus (slice a (Some (Z.of_nat i)) None)
                      (slice b None (Some (- Z.of_nat i)%Z))
  = Ok (map (λ t, nth (t + i) a 0 - nth t b 0) (seq 0 (length a - i))).
Proof.
  intros Hb Hi.
  rewrite slice_from, slice_to_back by lia.
  rewrite Nat2Z.id, Hb.
  unfold Np.broadcast.
  assert (Hl : length (drop i a) = length (take (length a - i) b)).
  { rewrite length_drop, length_take. lia. }
  destruct (decide _) as [_|Hn]; [|contradiction].
  f_equal. rewrite zip_with_nth, <- Hl, Nat.min_id, length_drop.
  apply map_ext_in. intros t Ht. apply in_seq in Ht.
  rewrite nth_skipn, nth_firstn.
  destruct (Nat.ltb_spec t (length a - i)) as [_|?]; [|lia].
  rewrite (Nat.add_comm i t). reflexivity.
Qed.

Lemma nth_map_seq (g : nat → R) (m k : nat) :
  (k < m)%nat → nth k (map g (seq 0 m)) 0 = g k.
Proof.
  intros Hk.
  rewrite (nth_indep _ 0 (g 0%nat)) by (rewrite length_map, length_seq; lia).
  rewrite (map_nth g), seq_nth by lia. reflexivity.
Qed.

Lemma length_dot_arr (T : mat2) (X : arr2) :
  length X.1 = length X.2 →
  length (dot_arr T X).1 = length X.1 ∧ length (dot_arr T X).2 = length X.1.
Proof.
  intros Hl. unfold dot_arr. cbn [fst snd]. rewrite !length_zip_with. lia.
Qed.

(** [np.dot(T, X)] applies [T] to every column of [X]. *)
Lemma col_dot_arr (T : mat2) (X : arr2) (k : nat) :
  length X.1 = length X.2 → (k < length X.1)%nat →
  col (dot_arr T X) k = State.dot T (col X k).
Proof.
  intros Hl Hk. unfold col, dot_arr, State.dot. cbn [fst snd].
  rewrite !zip_with_nth, <- Hl, Nat.min_id.
  rewrite !nth_map_seq by exact Hk. reflexivity.
Qed.

Lemma sum_map_zero {A : Type} (f : A → R) (l : list A) :
  (∀ a, a ∈ l → f a = 0) → Np.sum (map f l) = 0.
Proof.
  unfold Np.sum. induction l as [|a l IH]; intros H; cbn; [reflexivity|].
  rewrite (H a) by left. rewrite IH; [lra|].
  intros b Hb. apply H. right. exact Hb.
Qed.

Lemma sum_zero_entries {A : Type} (f : A → R) (l : list A) :
  (∀ a, a ∈ l → 0 <= f a) → Np.sum (map f l) = 0 → ∀ a, a ∈ l → f a = 0.
Proof.
  induction l as [|b l IH]; intros Hpos Hsum a Ha.
  - inversion Ha.
  - assert (Hl : 0 <= Np.sum (map f l)).
    { apply sum_nonneg. intros c Hc. apply Hpos. right. exact Hc. }
    assert (Hb : 0 <= f b) by (apply Hpos; left).
    change (f b + Np.sum (map f l) = 0) in Hsum.
    apply elem_of_cons in Ha as [->|Ha]; [lra|].
    apply IH; [|lra|exact Ha].
    intros c Hc. apply Hpos. right. exact Hc.
Qed.

Lemma sum_squares_nonneg (l : list R) : 0 <= Np.sum (map (λ v, v ^ 2) l).
Proof. apply sum_nonneg. intros v _. apply pow2_ge_0. Qed.

Lemma sum_sq_nonneg (e : arr2) : 0 <= sum_sq e.
Proof.
  unfold sum_sq.
  pose proof (sum_squares_nonneg e.1). pose proof (sum_squares_nonneg e.2). lra.
Qed.

Lemma div_nonneg (a b : R) : 0 <= a → 0 < b → 0 <= a / b.
Proof.
  intros Ha Hb. unfold Rdiv.
  apply Rmult_le_pos; [exact Ha|]. left. apply Rinv_0_lt_compat, Hb.
Qed.

Lemma div_pos (a b : R) : 0 < a → 0 < b → 0 < a / b.
Proof.
  intros Ha Hb. unfold Rdiv.
  apply Rmult_lt_0_compat; [exact Ha|]. apply Rinv_0_lt_compat, Hb.
Qed.

Lemma pow2_zero (v : R) : v ^ 2 = 0 → v = 0.
Proof.
  intros H. cbn in H. destruct (Rmult_integral _ _ H) as [?|H']; [assumption|lra].
Qed.

(** The error at horizon [i] vanishes exactly when the prediction agrees with
    the data shifted by [i]. *)
Lemma step_error_zero (X Xp : arr2) (i : nat) :
  length X.1 = length X.2 →
  sum_sq (step_error X Xp i) = 0
  ↔ ∀ j, (j + i < length X.1)%nat → col Xp j = col X (j + i).
Proof.
  intros Hl. unfold sum_sq, step_error, col. cbn [fst snd].
  rewrite !map_map, <- Hl. split.
  - intros Hs j Hj.
    pose proof (sum_nonneg (λ t, (nth (t + i) X.1 0 - nth t Xp.1 0) ^ 2)
                  (seq 0 (length X.1 - i)) (λ t _, pow2_ge_0 _)) as H1.
    pose proof (sum_nonneg (λ t, (nth (t + i) X.2 0 - nth t Xp.2 0) ^ 2)
                  (seq 0 (length X.1 - i)) (λ t _, pow2_ge_0 _)) as H2.
    assert (Hin : j ∈ seq 0 (length X.1 - i)) by (apply elem_of_seq; lia).
    set (f1 := λ t, (nth (t + i) X.1 0 - nth t Xp.1 0) ^ 2) in *.
    set (f2 := λ t, (nth (t + i) X.2 0 - nth t Xp.2 0) ^ 2) in *.
    assert (Z1 : Np.sum (map f1 (seq 0 (length X.1 - i))) = 0) by lra.
    assert (Z2 : Np.sum (map f2 (seq 0 (length X.1 - i))) = 0) by lra.
    pose proof (sum_zero_entries f1 _ (λ t _, pow2_ge_0 _) Z1 j Hin) as E1.
    pose proof (sum_zero_entries f2 _ (λ t _, pow2_ge_0 _) Z2 j Hin) as E2.
    unfold f1 in E1. unfold f2 in E2.
    cbv beta in E1, E2.
    apply pow2_zero in E1, E2. f_equal; lra.
  - intros Hc.
    rewrite !sum_map_zero; [lra| |].
    + intros t Ht. apply elem_of_seq in Ht.
      specialize (Hc t ltac:(lia)). injection Hc as _ ->. ring.
    + intros t Ht. apply elem_of_seq in Ht.
      specialize (Hc t ltac:(lia)). injection Hc as -> _. ring.
Qed.

(** The loop of [pred_objective], for a horizon shorter than the data. *)
Lemma pred_objective_loop (X : arr2) (fitlags : Z) (T : mat2) :
  let n := length X.1 in
  length X.1 = length X.2 → (0 ≤ fitlags < Z.of_nat n)%Z →
  ∃ err,
    pred_objective X fitlags T = Ok err
    ∧ 0 <= err
    ∧ ((1 ≤ fitlags)%Z →
         sum_sq (step_error X (dot_arr T X) 1)
           / IZR (Z.of_nat n - 1) / IZR fitlags <= err)
    ∧ ((∀ k, (S k < n)%nat → col X (S k) = State.dot T (col X k)) → err = 0).
Proof.
  intros n Hl Hf. unfold pred_objective. fold n.
  set (first := sum_sq (step_error X (dot_arr T X) 1)
                  / IZR (Z.of_nat n - 1) / IZR fitlags).
  set (dyn := ∀ k, (S k < n)%nat → col X (S k) = State.dot T (col X k)).
  destruct (for_each_invariant
    (λ '(X_prev, err) i,
       let X_prev := dot_arr T X_prev in
       e0 ← Np.broadcast Rminus (slice X.1 (Some i) None)
                                (slice X_prev.1 None (Some (- i)%Z));
       e1 ← Np.broadcast Rminus (slice X.2 (Some i) None)
                                (slice X_prev.2 None (Some (- i)%Z));
       Ok (X_prev,
           err + sum_sq (e0, e1) / IZR (Z.of_nat n - i) / IZR fitlags))
    (λ k s,
       length s.1.1 = n ∧ length s.1.2 = n ∧ 0 <= s.2
       ∧ (k = 0%nat → s.1 = X)
       ∧ ((1 ≤ k)%nat → first <= s.2)
       ∧ (dyn → s.2 = 0
                ∧ ∀ j, (j + k < n)%nat → col s.1 j = col X (j + k)))
    (range 1 (fitlags + 1)) (X, 0)) as (r & Hr & HI).
  - cbn [fst snd]. repeat split; try easy; try lra; try lia.
    intros j _. rewrite Nat.add_0_r. reflexivity.
  - intros k b [Xp err] Hk (L1 & L2 & Hpos & Hinit & Hfirst & Hdyn).
    cbn [fst snd] in *.
    apply lookup_seqZ in Hk as [-> Hk].
    replace (1 + Z.of_nat k)%Z with (Z.of_nat (S k)) by lia.
    cbv zeta.
    destruct (length_dot_arr T Xp) as [D1 D2]; [congruence|].
    rewrite (step_error_row X.1 (dot_arr T Xp).1 (S k)) by (fold n; lia).
    cbn [mbind result_bind].
    rewrite (step_error_row X.2 (dot_arr T Xp).2 (S k)) by lia.
    cbn [mbind result_bind].
    change (map _ _, map _ _) with (step_error X (dot_arr T Xp) (S k)).
    set (term := sum_sq (step_error X (dot_arr T Xp) (S k))
                   / IZR (Z.of_nat n - Z.of_nat (S k)) / IZR fitlags).
    assert (Hterm : 0 <= term).
    { unfold term. pose proof (sum_sq_nonneg (step_error X (dot_arr T Xp) (S k))).
      assert (0 < IZR (Z.of_nat n - Z.of_nat (S k))) by (apply IZR_lt; lia).
      assert (0 < IZR fitlags) by (apply IZR_lt; lia).
      apply div_nonneg; [apply div_nonneg|]; assumption. }
    eexists; split; [reflexivity|]. cbn [fst snd].
    split; [lia|]. split; [lia|]. split; [lra|]. split; [lia|]. split.
    + intros _. destruct k as [|k].
      * unfold first, term. rewrite (Hinit eq_refl).
        change (Z.of_nat 1) with 1%Z. lra.
      * specialize (Hfirst ltac:(lia)). lra.
    + intros Hd. destruct (Hdyn Hd) as [-> Hcol].
      assert (Hcol' : ∀ j, (j + S k < n)%nat
                        → col (dot_arr T Xp) j = col X (j + S k)).
      { intros j Hj. rewrite col_dot_arr by lia.
        rewrite Hcol by lia. rewrite Nat.add_succ_r. symmetry. apply Hd. lia. }
      split; [|exact Hcol'].
      unfold term. apply (step_error_zero X _ (S k) Hl) in Hcol'.
      rewrite Hcol'. unfold Rdiv. ring.
  - destruct r as [Xp err]. cbn [fst snd] in *.
    destruct HI as (_ & _ & Hpos & _ & Hfirst & Hdyn).
    unfold range in Hfirst, Hdyn. rewrite length_seqZ in Hfirst, Hdyn.
    exists err. rewrite Hr. cbn [mbind result_bind mret result_ret snd].
    split; [reflexivity|]. split; [exact Hpos|]. split.
    + intros H1. apply Hfirst. lia.
    + intros Hd. apply (Hdyn Hd).
Qed.

(** X23.  For a horizon [fitlags] with [0 <= fitlags < n_pts], on a
    [(2, n_pts)] array, [pred_objective] returns an error that is never
    negative. *)
Theorem pred_objective_nonneg (X : arr2) (fitlags : Z) (T : mat2) :
  length X.1 = length X.2 → (0 ≤ fitlags < Z.of_nat (length X.1))%Z →
  ∃ err, pred_objective X fitlags T = Ok err ∧ 0 <= err.
Proof.
  intros Hl Hf.
  destruct (pred_objective_loop X fitlags T Hl Hf) as (err & He & Hpos & _).
  exists err. split; assumption.
Qed.

Lemma pred_objective_nonneg_witness :
  ∃ err, pred_objective ([1; 2; 4], [0; 1; 3]) 2 ((0.85, 0.005), (-1.5, 0.05))
         = Ok err ∧ 0 <= err.
Proof.
  apply (pred_objective_nonneg ([1; 2; 4], [0; 1; 3]) 2
           ((0.85, 0.005), (-1.5, 0.05))).
  - reflexivity.
  - cbn. lia.
Defined.

(** X24.  For a horizon [fitlags] with [1 <= fitlags < n_pts], the prediction
    error of [pred_objective] is zero exactly when the data follow the model
    without error: every column of [X] but the first is [T] applied to the
    column before it. *)
Theorem pred_objective_zero_iff (X : arr2) (fitlags : Z) (T : mat2) :
  length X.1 = length X.2 → (1 ≤ fitlags < Z.of_nat (length X.1))%Z →
  pred_objective X fitlags T = Ok 0
  ↔ ∀ k, (S k < length X.1)%nat → col X (S k) = State.dot T (col X k).
Proof.
  intros Hl Hf.
  destruct (pred_objective_loop X fitlags T Hl ltac:(lia))
    as (err & He & Hpos & Hfirst & Hdyn).
  rewrite He. split.
  - intros [= ->]. specialize (Hfirst ltac:(lia)).
    pose proof (sum_sq_nonneg (step_error X (dot_arr T X) 1)) as Hs.
    assert (Ha : 0 < IZR (Z.of_nat (length X.1) - 1)) by (apply IZR_lt; lia).
    assert (Hb : 0 < IZR fitlags) by (apply IZR_lt; lia).
    assert (Hz : sum_sq (step_error X (dot_arr T X) 1) = 0).
    { destruct (Rle_lt_or_eq_dec _ _ Hs) as [Hlt|<-]; [|reflexivity].
      exfalso.
      assert (0 < sum_sq (step_error X (dot_arr T X) 1)
                    / IZR (Z.of_nat (length X.1) - 1) / IZR fitlags).
      { apply div_pos; [apply div_pos|]; assumption. }
      lra. }
    intros k Hk.
    pose proof (proj1 (step_error_zero X (dot_arr T X) 1 Hl) Hz) as Hc.
    rewrite <- col_dot_arr by lia.
    rewrite (Hc k) by lia. rewrite Nat.add_1_r. reflexivity.
  - intros Hd. rewrite (Hdyn Hd). reflexivity.
Qed.

Lemma pred_objective_zero_iff_witness :
  pred_objective ([1; 2; 3], [1; 1; 3]) 2 ((1, 1), (2, -1)) = Ok 0
  ↔ ∀ k, (S k < 3)%nat
         → col ([1; 2; 3], [1; 1; 3]) (S k)
           = State.dot ((1, 1), (2, -1)) (col ([1; 2; 3], [1; 1; 3]) k).
Proof.
  apply (pred_objective_zero_iff ([1; 2; 3], [1; 1; 3]) 2 ((1, 1), (2, -1))).
  - reflexivity.
  - cbn. lia.
Defined.
(** ** The white-noise model and the fit of order 0 *)

Lemma white_noise_system (innov_var : R) :
  system_matrix {| ar := []; ma := [] |} = [[1; 0]; [0; 1]]
  ∧ system_rhs {| ar := []; ma := [] |} innov_var = [innov_var; 0].
Proof.
  split.
  - vm_compute. eq_entries; lra.
  - vm_compute. eq_entries; field.
Qed.

Lemma solve_identity2 (b0 b1 : R) :
  Linalg.solve [[1; 0]; [0; 1]] [b0; b1] = Ok [b0; b1].
Proof.
  unfold Linalg.solve. cbn [length].
  destruct (decide _) as [_|Hn].
  2:{ exfalso. apply Hn. split; [reflexivity|]. repeat constructor. }
  repeat (progress eliminate_step).
  cbn [Linalg.eliminate mbind result_bind Sig.dot zip_with Np.sum foldr tl].
  eq_entries; field.
Qed.

Lemma white_noise_entries (innov_var : R) (maxlags : Z) :
  (0 ≤ maxlags)%Z →
  ∃ cov,
    arma_acov {| ar := []; ma := [] |} maxlags innov_var = Ok cov
    ∧ length cov = Z.to_nat (maxlags + 1)
    ∧ cov !! 0%nat = Some innov_var
    ∧ ∀ h : nat, (1 ≤ h)%nat → (Z.of_nat h ≤ maxlags)%Z → cov !! h = Some 0.
Proof.
  intros Hm. rewrite arma_acov_stages.
  destruct (white_noise_system innov_var) as [-> ->].
  rewrite solve_identity2. cbn [mbind result_bind].
  destruct (complete_cov_returns {| ar := []; ma := [] |} maxlags
              [innov_var; 0] eq_refl) as (cov & Hcov).
  exists cov. split; [exact Hcov|].
  destruct (complete_cov_entries {| ar := []; ma := [] |} maxlags
              [innov_var; 0] cov eq_refl ltac:(lia) Hcov)
    as (Hlen & Hkeep & Hrec).
  change (solved_lags {| ar := []; ma := [] |}) with 1%nat in *.
  cbn [ar] in Hrec.
  split; [exact Hlen|]. split; [apply Hkeep; lia|].
  intros h Hh Hhm. destruct (decide (h = 1%nat)) as [->|Hne].
  - apply Hkeep; lia.
  - rewrite Hrec by lia. reflexivity.
Qed.

(** X25.  The autocovariance of the model without coefficients (white noise)
    is the innovation variance at lag 0 and 0 at every further lag, for every
    largest lag. *)
Theorem arma_acov_white_noise (innov_var : R) (maxlags : Z) :
  (0 ≤ maxlags)%Z →
  arma_acov {| ar := []; ma := [] |} maxlags innov_var
  = Ok (innov_var :: Np.zeros (Z.to_nat maxlags)).
Proof.
  intros Hm.
  destruct (white_noise_entries innov_var maxlags Hm)
    as (cov & -> & Hlen & H0 & Hz).
  f_equal. apply list_eq. intros [|h].
  - exact H0.
  - cbn [lookup list_lookup]. change (cov !! S h = Np.zeros (Z.to_nat maxlags) !! h).
    destruct (decide (Z.of_nat (S h) ≤ maxlags)%Z) as [Hh|Hh].
    + rewrite Hz by lia. symmetry. apply lookup_replicate_2. lia.
    + rewrite (lookup_ge_None_2 cov) by lia. symmetry.
      apply lookup_ge_None_2. rewrite length_zeros. lia.
Qed.

Lemma arma_acov_white_noise_witness :
  arma_acov {| ar := []; ma := [] |} 3 2 = Ok (2 :: Np.zeros (Z.to_nat 3)).
Proof. apply (arma_acov_white_noise 2 3). lia. Defined.

(** X26.  A fit of order 0: when the least squares routine and the optimizer
    return the empty coefficient vector, the residual variance is the
    empirical lag-0 autocovariance of the data. *)
Theorem ar_acf_fit_order_zero
    (lstsq : list (list R) → list R → Result (list R))
    (fmin : (list R → Result R) → list R → Result (list R))
    (x : list R) (maxlags : option Z) :
  lstsq (lagged_design x 0) (trimmed_target x 0) = Ok [] →
  match maxlags with
  | Some m => fmin (cov_objective x m) []
  | None => Ok []
  end = Ok [] →
  ar_acf_fit lstsq fmin x 0 maxlags = Ok ([], autocov x 0).
Proof.
  intros Hls Hopt.
  replace (autocov x 0) with (autocov x 0 / 1) by field.
  apply (ar_acf_fit_value lstsq fmin x 0 maxlags [] []).
  - lia.
  - exact Hls.
  - exact Hopt.
  - destruct (white_noise_entries 1 0 ltac:(lia)) as (cov & -> & Hlen & H0 & _).
    destruct cov as [|c [|? ?]]; try discriminate.
    injection H0 as ->. reflexivity.
Qed.

Lemma ar_acf_fit_order_zero_witness :
  ar_acf_fit (λ X y, Ok (Np.zeros (length (hd [] X)))) (λ f x0, Ok x0)
    [1; 2; 4] 0 (Some 2%Z)
  = Ok ([], autocov [1; 2; 4] 0).
Proof.
  apply (ar_acf_fit_order_zero
           (λ X y, Ok (Np.zeros (length (hd [] X)))) (λ f x0, Ok x0)
           [1; 2; 4] (Some 2%Z)).
  - reflexivity.
  - reflexivity.
Defined.

(** ** Orders the fit rejects, and the regression it builds *)

(** X27.  An order outside [0 .. len(x)] is rejected before any fitting: a
    negative order fails the assertion, an order larger than the sample
    makes the regressor matrix of negative height, a [ValueError]. *)
Theorem ar_acf_fit_rejects_order
    (lstsq : list (list R) → list R → Result (list R))
    (fmin : (list R → Result R) → list R → Result (list R))
    (x : list R) (p : Z) (maxlags : option Z) :
  ¬ (0 ≤ p ≤ Z.of_nat (length x))%Z →
  ar_acf_fit lstsq fmin x p maxlags
  = Raise (if decide (p < 0)%Z then AssertionError else ValueError).
Proof.
  intros Hp. unfold ar_acf_fit, assert.
  destruct (decide (0 ≤ p)%Z) as [H0|H0];
    destruct (decide (p < 0)%Z) as [Hn|Hn]; try lia; [|reflexivity].
  cbn [mbind result_bind]. unfold regressors, Np2.zeros.
  destruct (decide _) as [?|_]; [lia|]. reflexivity.
Qed.

Lemma ar_acf_fit_rejects_order_witness :
  ar_acf_fit (λ X y, Ok []) (λ f x0, Ok x0) [1; 2; 4] 4 None
  = Raise (if decide (4 < 0)%Z then AssertionError else ValueError).
Proof.
  apply (ar_acf_fit_rejects_order (λ X y, Ok []) (λ f x0, Ok x0) [1; 2; 4] 4 None).
  cbn. lia.
Defined.

(** X28.  For an order [p] up to the sample length [n], the regression of
    the first guess has [n - p] rows and [p] columns; row [t] holds the [p]
    samples that follow [x[t]], that is [x[t+1], ..., x[t+p]], and the target
    is [x[0], ..., x[n-p-1]]. *)
Theorem regressors_entries (x : list R) (p : nat) :
  (p ≤ length x)%nat →
  ∃ X y,
    regressors x (Z.of_nat p) = Ok (X, y)
    ∧ length X = (length x - p)%nat
    ∧ Forall (λ row, length row = p) X
    ∧ y = take (length x - p) x
    ∧ ∀ t i, (t < length x - p)%nat → (i < p)%nat →
        X !! t ≫= (λ row, row !! i) = x !! (t + i + 1)%nat.
Proof.
  intros Hp. exists (lagged_design x p), (trimmed_target x p).
  split; [apply regressors_spec, Hp|]. unfold lagged_design, trimmed_target.
  split; [rewrite length_map, length_seq; reflexivity|].
  split.
  { apply Forall_forall. intros row Hrow.
    apply list_elem_of_In, in_map_iff in Hrow as (t & <- & _).
    rewrite length_map, length_seq. reflexivity. }
  split; [reflexivity|].
  intros t i Ht Hi.
  rewrite list_lookup_fmap, lookup_seq_lt by lia. cbn.
  rewrite list_lookup_fmap, lookup_seq_lt by lia. cbn.
  destruct (x !! (t + i + 1)%nat) as [v|] eqn:Hx.
  - rewrite (nth_lookup_Some _ _ _ _ Hx). reflexivity.
  - apply lookup_ge_None in Hx. lia.
Qed.

Lemma regressors_entries_witness :
  ∃ X y,
    regressors [1; 2; 4; 8] (Z.of_nat 2) = Ok (X, y)
    ∧ length X = (length [1; 2; 4; 8] - 2)%nat
    ∧ Forall (λ row, length row = 2%nat) X
    ∧ y = take (length [1; 2; 4; 8] - 2) [1; 2; 4; 8]
    ∧ ∀ t i, (t < length [1; 2; 4; 8] - 2)%nat → (i < 2)%nat →
        X !! t ≫= (λ row, row !! i) = [1; 2; 4; 8] !! (t + i + 1)%nat.
Proof. apply (regressors_entries [1; 2; 4; 8] 2). cbn. lia. Defined.

(** ** The penalty on the power injected to the grid *)

(** X29.  For a positive [power_max], the penalty has one entry per entry of
    [P_grid]; each is non-negative, and it is at most 1 exactly when the
    power is within [-power_max, power_max]. *)
Theorem cost_unit_threshold (pmax : R) (P_grid : list R) :
  0 < pmax →
  length (cost pmax P_grid) = length P_grid
  ∧ ∀ k P, P_grid !! k = Some P →
      ∃ c, cost pmax P_grid !! k = Some c
           ∧ 0 <= c ∧ (c <= 1 ↔ - pmax <= P <= pmax).
Proof.
  intros Hpos. unfold cost. split; [apply length_map|].
  intros k P Hk. exists ((P / pmax) ^ 2).
  split; [rewrite list_lookup_fmap, Hk; reflexivity|].
  split; [apply pow2_ge_0|].
  assert (Hq : P = (P / pmax) * pmax) by (field; lra).
  set (q := P / pmax) in *. clearbody q. subst P.
  split.
  - intros Hc. assert (-1 <= q <= 1) by nra. nra.
  - intros [Hlo Hhi]. assert (-1 <= q <= 1) by nra. nra.
Qed.

Lemma cost_unit_threshold_witness :
  length (cost 2 [1; -3]) = length [1; -3]
  ∧ ∀ k P, [1; -3] !! k = Some P →
      ∃ c, cost 2 [1; -3] !! k = Some c
           ∧ 0 <= c ∧ (c <= 1 ↔ - 2 <= P <= 2).
Proof. apply (cost_unit_threshold 2 [1; -3]). lra. Defined.
